(** * PriorityQueue: a binary heap stored in a JavaScript array

    Shallow embedding of the [PriorityQueue<T>] class and verification of
    its heap-order invariant, its pop order, its arbitrary-value removal,
    and of the aliasing behaviour of [merge] and of the iterator.

    Modelling conventions.
    - JavaScript numbers used as indices, comparator results and (for the
      default comparators) elements are integers, modelled as [Z];
      floating point is outside the model, and NaN enters only where
      element equality is at stake (module [JsEq]).
    - The backing array [this.heap] is a [list T]; [undefined] is [None].
    - Loops are structural on a fuel counter; for each loop an adequacy
      lemma shows that the fuel the methods pass is never exhausted. *)

From Stdlib Require Import ZArith Lia.
From stdpp Require Import base option list sorting.

Open Scope Z_scope.

(** ** JavaScript arrays *)

Module JsArray.

(** [a.length] *)
Definition len {A} (h : list A) : Z := Z.of_nat (length h).

(** [a[i]]: [undefined] outside [0 .. length-1]. *)
Definition get {A} (h : list A) (i : Z) : option A :=
  if decide (0 <= i) then h !! Z.to_nat i else None.

(** [a[i] = x] for an index inside the array.  Every write of the class
    is guarded so that it stays inside (see the call sites); a write
    outside would make the JavaScript array sparse, which a list does not
    represent, and the model leaves the list as it is. *)
Definition set {A} (h : list A) (i : Z) (x : A) : list A :=
  if decide (0 <= i) then <[Z.to_nat i := x]> h else h.

(** [a.push(x)] *)
Definition push {A} (h : list A) (x : A) : list A := h ++ [x].

(** [a.pop()]: the shortened array and the removed last element. *)
Definition pop {A} (h : list A) : list A * option A :=
  (take (Nat.pred (length h)) h, last h).

(** [a.indexOf(v)]: first index holding [v], or [-1]. *)
Fixpoint indexOf_from {A} `{EqDecision A} (h : list A) (v : A) (i : Z) : Z :=
  match h with
  | [] => -1
  | x :: t => if decide (x = v) then i else indexOf_from t v (i + 1)
  end.

Definition indexOf {A} `{EqDecision A} (h : list A) (v : A) : Z :=
  indexOf_from h v 0.

(** [a.includes(v)] *)
Definition includes {A} `{EqDecision A} (h : list A) (v : A) : bool :=
  bool_decide (v ∈ h).

End JsArray.

Import JsArray.

(** ** The class, one method at a time, on the backing array *)

Definition Comparator (T : Type) : Type := T -> T -> Z.

Inductive HeapType : Type := Min | Max.

(** Default comparator chosen by the constructor from the heap type. *)
Definition defaultComparator (type : HeapType) : Comparator Z :=
  match type with
  | Min => fun a b => a - b
  | Max => fun a b => b - a
  end.

(** [comparator ? comparator : default(type)] *)
Definition selectComparator (comparator : option (Comparator Z))
    (type : HeapType) : Comparator Z :=
  match comparator with
  | Some c => c
  | None => defaultComparator type
  end.

Definition getParentIndex (index : Z) : Z := (index - 1) / 2.
Definition getLeftChildIndex (index : Z) : Z := 2 * index + 1.
Definition getRightChildIndex (index : Z) : Z := 2 * index + 2.

Module Heap.

Section Methods.

Context {T : Type} `{EqDecision T}.
Variable compare : Comparator T.

(** [this.compare(this.heap[i], this.heap[j]) < 0].  The methods only
  evaluate it at indices inside the array. *)
Definition outranks (h : list T) (i j : Z) : bool :=
match get h i, get h j with
| Some a, Some b => bool_decide (compare a b < 0)
| _, _ => false
end.

(** [[this.heap[i], this.heap[j]] = [this.heap[j], this.heap[i]]] *)
Definition swap (h : list T) (i j : Z) : list T :=
match get h i, get h j with
| Some a, Some b => set (set h i b) j a
| _, _ => h
end.

Fixpoint bubbleUp_loop (fuel : nat) (h : list T) (index : Z) : list T :=
match fuel with
| O => h
| S fuel' =>
    if decide (index > 0) then
      let parentIdx := getParentIndex index in
      if outranks h index parentIdx
      then bubbleUp_loop fuel' (swap h index parentIdx) parentIdx
      else h
    else h
end.

Definition bubbleUp (h : list T) (index : Z) : list T :=
bubbleUp_loop (length h) h index.

(** The index [bubbleDown] moves to from [index]: [index] itself when
  neither child outranks it. *)
Definition targetIdx (h : list T) (index : Z) : Z :=
let length := len h in
let leftIdx := getLeftChildIndex index in
let rightIdx := getRightChildIndex index in
let targetIdx := index in
let targetIdx :=
  if (leftIdx <? length) && outranks h leftIdx targetIdx
  then leftIdx else targetIdx in
let targetIdx :=
  if (rightIdx <? length) && outranks h rightIdx targetIdx
  then rightIdx else targetIdx in
targetIdx.

Fixpoint bubbleDown_loop (fuel : nat) (h : list T) (index : Z) : list T :=
match fuel with
| O => h
| S fuel' =>
    let t := targetIdx h index in
    if decide (t = index) then h
    else bubbleDown_loop fuel' (swap h index t) t
end.

Definition bubbleDown (h : list T) (index : Z) : list T :=
bubbleDown_loop (length h) h index.

(** [for (i = floor(length/2) - 1; i >= 0; i--) bubbleDown(i)];
  the counter [n] is [i + 1]. *)
Fixpoint heapify_loop (n : nat) (h : list T) : list T :=
match n with
| O => h
| S i => heapify_loop i (bubbleDown h (Z.of_nat i))
end.

Definition heapify (h : list T) : list T :=
heapify_loop (Z.to_nat (len h / 2)) h.

(** The constructor's effect on [this.heap] (which starts as [[]]). *)
Definition construct (initialValues : option (list T)) : list T :=
match initialValues with
| Some vs => if decide (len vs > 0) then heapify vs else []
| None => []
end.

Definition size (h : list T) : Z := len h.

Definition isEmpty (h : list T) : bool := bool_decide (len h = 0).

Definition push (h : list T) (value : T) : list T * Z :=
let h1 := JsArray.push h value in
let h2 := bubbleUp h1 (len h1 - 1) in
(h2, len h2).

Definition pop (h : list T) : list T * option T :=
if isEmpty h then (h, None)
else if decide (len h = 1) then JsArray.pop h
else
  let top := get h 0 in
  let '(h1, moved) := JsArray.pop h in
  match moved with
  | Some x => (bubbleDown (set h1 0 x) 0, top)
  | None => (h1, top)
  end.

Definition peek (h : list T) : option T := get h 0.

Definition clear (h : list T) : list T := [].

Definition toArray (h : list T) : list T := h.

(** [while (this.heap.length > 0) sorted.push(this.pop()!)] *)
Fixpoint drain_loop (fuel : nat) (h : list T) (sorted : list T)
  : list T * list T :=
match fuel with
| O => (h, sorted)
| S fuel' =>
    if decide (len h > 0) then
      let '(h', x) := pop h in
      drain_loop fuel' h' (match x with
                           | Some v => JsArray.push sorted v
                           | None => sorted
                           end)
    else (h, sorted)
end.

(** Popping until the heap is empty, collecting the results. *)
Definition drain (h : list T) : list T :=
snd (drain_loop (length h) h []).

(** Pushing the values of [vs], first to last. *)
Definition pushAll (h : list T) (vs : list T) : list T :=
  foldl (fun h v => fst (push h v)) h vs.

(** The first component is the array [this.heap] is bound to on return:
    the copy [tempHeap] taken before the loop drains the original. *)
Definition toSortedArray (h : list T) : list T * list T :=
let tempHeap := h in
let '(_, sorted) := drain_loop (length h) h [] in
(tempHeap, sorted).

Definition contains (h : list T) (value : T) : bool := includes h value.

Definition remove (h : list T) (value : T) : list T * bool :=
let index := indexOf h value in
if decide (index = -1) then (h, false)
else if decide (index = len h - 1) then (fst (JsArray.pop h), true)
else
  let '(h1, moved) := JsArray.pop h in
  match moved with
  | Some x =>
      let h2 := set h1 index x in
      let parentIdx := getParentIndex index in
      if (parentIdx >=? 0) && outranks h2 index parentIdx
      then (bubbleUp h2 index, true)
      else (bubbleDown h2 index, true)
  | None => (h1, true)
  end.

Definition replace (h : list T) (value : T) : list T * option T :=
if isEmpty h then (fst (push h value), None)
else
  let top := get h 0 in
  (bubbleDown (set h 0 value) 0, top).

(** [this.compare(value, this.heap[0]) < 0] *)
Definition outranksTop (h : list T) (value : T) : bool :=
match get h 0 with
| Some t => bool_decide (compare value t < 0)
| None => false
end.

Definition pushPop (h : list T) (value : T) : list T * option T :=
if isEmpty h || outranksTop h value then (h, Some value)
else replace h value.

(** [merge(other)] when [other] is a different queue, whose backing
  array is [other]: its elements are appended in array order and the
  result is heapified.  The object-level [merge] below runs the
  iterator loop of the source and is shown to agree with this. *)
Definition merge (h other : list T) : list T :=
heapify (h ++ other).

End Methods.

End Heap.

Import Heap.

(** ** Element equality as JavaScript has it

    [indexOf] compares with [===] and [includes] with SameValueZero.  On
    the values of the model the two differ on NaN only: NaN is [===] to
    nothing, itself included, while SameValueZero matches NaN with NaN.
    The methods above are stated for element types without NaN.  Here
    [isNaN] marks the elements that are NaN, and [contains] and [remove]
    are given over the two equalities. *)

Module JsEq.

Section Methods.

Context {T : Type} `{EqDecision T}.
Variable isNaN : T -> bool.
Variable compare : Comparator T.

(** [x === v] *)
Definition strictEquals (x v : T) : bool :=
  bool_decide (x = v) && negb (isNaN v).

(** SameValueZero(x, v) *)
Definition sameValueZero (x v : T) : bool := bool_decide (x = v).

(** [a.indexOf(v)] *)
Fixpoint indexOf_from (h : list T) (v : T) (i : Z) : Z :=
  match h with
  | [] => -1
  | x :: t => if strictEquals x v then i else indexOf_from t v (i + 1)
  end.

Definition indexOf (h : list T) (v : T) : Z := indexOf_from h v 0.

(** [a.includes(v)] *)
Definition includes (h : list T) (v : T) : bool :=
  existsb (fun x => sameValueZero x v) h.

Definition contains (h : list T) (value : T) : bool := includes h value.

Definition remove (h : list T) (value : T) : list T * bool :=
  let index := indexOf h value in
  if decide (index = -1) then (h, false)
  else if decide (index = len h - 1) then (fst (JsArray.pop h), true)
  else
    let '(h1, moved) := JsArray.pop h in
    match moved with
    | Some x =>
        let h2 := set h1 index x in
        let parentIdx := getParentIndex index in
        if (parentIdx >=? 0) && outranks compare h2 index parentIdx
        then (bubbleUp compare h2 index, true)
        else (bubbleDown compare h2 index, true)
    | None => (h1, true)
    end.

End Methods.

End JsEq.

(** ** The heap-order invariant *)

Section Invariant.

Context {T : Type}.
Variable compare : Comparator T.

(** [c] is a child position of [i]. *)
Definition child (i c : Z) : Prop :=
  c = getLeftChildIndex i \/ c = getRightChildIndex i.

(** [compare(elements[i], elements[c]) <= 0] whenever both exist. *)
Definition ordered (h : list T) (i c : Z) : Prop :=
  forall a b, get h i = Some a -> get h c = Some b -> compare a b <= 0.

(** Heap property restricted to the parents at or after [lo]. *)
Definition heap_from (lo : Z) (h : list T) : Prop :=
  forall i c, lo <= i -> child i c -> ordered h i c.

(** Heap property: every valid index is ordered with each child that
    exists. *)
Definition heap_ok (h : list T) : Prop :=
  forall i c a b,
    0 <= i < len h -> child i c -> c < len h ->
    get h i = Some a -> get h c = Some b -> compare a b <= 0.

(** Executable check of the heap property. *)
Definition is_heap (h : list T) : bool :=
  forallb (fun c : nat =>
             match get h (getParentIndex (Z.of_nat c)), get h (Z.of_nat c) with
             | Some a, Some b => bool_decide (compare a b <= 0)
             | _, _ => true
             end)
          (seq 1 (Nat.pred (length h))).

(** The contract of a comparator: its sign is antisymmetric and the
    induced order is transitive. *)
Definition sign_antisym : Prop :=
  forall a b, Z.sgn (compare b a) = - Z.sgn (compare a b).

Definition le_trans : Prop :=
  forall a b c, compare a b <= 0 -> compare b c <= 0 -> compare a c <= 0.

(** [a] comes no later than [b] in the order of the comparator. *)
Definition cle (a b : T) : Prop := compare a b <= 0.

(** Loop invariant of [bubbleDown] at [k]: the parents from [lo] on are
    ordered with their children except [k] itself, and the parent of [k]
    is ordered with the children of [k]. *)
Definition down_inv (lo k : Z) (h : list T) : Prop :=
  (forall i c, lo <= i -> i <> k -> child i c -> ordered h i c)
  /\ (forall p c, lo <= p -> child p k -> child k c -> ordered h p c).

(** Loop invariant of [bubbleUp] at [k]: every node is ordered with its
    parent except [k] itself, and the parent of [k] is ordered with the
    children of [k]. *)
Definition up_inv (k : Z) (h : list T) : Prop :=
  (forall i c, 0 <= i -> child i c -> c <> k -> ordered h i c)
  /\ (forall p c, 0 <= p -> child p k -> child k c -> ordered h p c).

End Invariant.

(** ** States reachable through the public API *)

Section Reachable.

Context {T : Type} `{EqDecision T}.
Variable compare : Comparator T.

(** The public mutating calls.  [Merge other] carries the backing array
    of the queue merged in. *)
Inductive Call : Type :=
| Push (value : T)
| Pop
| Remove (value : T)
| Replace (value : T)
| PushPop (value : T)
| Merge (other : list T)
| Clear
| ToSortedArray.

Definition call (c : Call) (h : list T) : list T :=
  match c with
  | Push v => fst (push compare h v)
  | Pop => fst (pop compare h)
  | Remove v => fst (remove compare h v)
  | Replace v => fst (replace compare h v)
  | PushPop v => fst (pushPop compare h v)
  | Merge other => merge compare h other
  | Clear => clear h
  | ToSortedArray => fst (toSortedArray compare h)
  end.

Inductive reachable : list T -> Prop :=
| reach_new initialValues :
    reachable (construct compare initialValues)
| reach_call c h :
    reachable h -> reachable (call c h).

End Reachable.

(** ** Objects: queues and iterators that share arrays

    A queue object holds a reference to its backing array and its
    comparator.  [push], [pop] and [merge] update the array in place;
    [clear] binds the field to a new array.  An iterator is a generator:
    creating it runs nothing, its first [next] reads [this.heap] and every
    [next] reads the array as it then is. *)

Module Store.

Record PriorityQueue (T : Type) : Type :=
  { heap : nat; compare : Comparator T }.
Arguments heap {T} _.
Arguments compare {T} _.

Record World (T : Type) : Type :=
  { arrays : list (list T); objects : list (PriorityQueue T) }.
Arguments arrays {T} _.
Arguments objects {T} _.

Section Methods.

Context {T : Type} `{EqDecision T}.

Definition empty : World T := {| arrays := []; objects := [] |}.

(** Contents of the array [this.heap] refers to. *)
Definition heapOf (w : World T) (this : nat) : option (list T) :=
  o ← objects w !! this; arrays w !! heap o.

(** In-place update of the array at reference [a]. *)
Definition store (w : World T) (a : nat) (h : list T) : World T :=
  {| arrays := <[a := h]> (arrays w); objects := objects w |}.

(** [new PriorityQueue({comparator, initialValues})]: the new world and
    the reference of the new queue.  Only the array the field ends up
    bound to is allocated; the empty array of the field initialiser is
    unreachable once [initialValues] replaces it. *)
Definition new (w : World T) (comparator : Comparator T)
    (initialValues : option (list T)) : World T * nat :=
  ({| arrays := arrays w ++ [construct comparator initialValues];
      objects := objects w
                 ++ [{| heap := length (arrays w);
                        compare := comparator |}] |},
   length (objects w)).

Definition size (w : World T) (this : nat) : option Z :=
  h ← heapOf w this; Some (len h).

Definition peek (w : World T) (this : nat) : option (option T) :=
  h ← heapOf w this; Some (Heap.peek h).

Definition push (w : World T) (this : nat) (value : T)
    : option (World T * Z) :=
  o ← objects w !! this;
  h ← arrays w !! heap o;
  let '(h', n) := Heap.push (compare o) h value in
  Some (store w (heap o) h', n).

Definition pop (w : World T) (this : nat)
    : option (World T * option T) :=
  o ← objects w !! this;
  h ← arrays w !! heap o;
  let '(h', r) := Heap.pop (compare o) h in
  Some (store w (heap o) h', r).

(** [this.heap = []]: a new array; the old one is left as it is. *)
Definition clear (w : World T) (this : nat) : option (World T) :=
  o ← objects w !! this;
  Some {| arrays := arrays w ++ [[]];
          objects := <[this := {| heap := length (arrays w);
                                  compare := compare o |}]> (objects w) |}.

(** State of the generator returned by [[Symbol.iterator]()]. *)
Inductive Iter : Type :=
| NotStarted (this : nat)
| Running (array : nat) (index : nat)
| Finished.

(** Calling the generator function runs none of its body: nothing of
    the world is read. *)
Definition iterator (w : World T) (this : nat) : Iter :=
  NotStarted this.

(** One step of the array iterator behind [for (const item of a)]. *)
Definition arrayNext (w : World T) (a index : nat) : option T * Iter :=
  match arrays w !! a with
  | Some h =>
      match h !! index with
      | Some x => (Some x, Running a (S index))
      | None => (None, Finished)
      end
  | None => (None, Finished)
  end.

(** [it.next()]: the yielded value ([None] when done). *)
Definition next (w : World T) (it : Iter) : option T * Iter :=
  match it with
  | NotStarted this =>
      match objects w !! this with
      | Some o => arrayNext w (heap o) 0
      | None => (None, Finished)
      end
  | Running a index => arrayNext w a index
  | Finished => (None, Finished)
  end.

(** [[...it]] in a world that nobody changes meanwhile; [None] when the
    fuel runs out. *)
Fixpoint enumerate (fuel : nat) (w : World T) (it : Iter)
    : option (list T) :=
  match fuel with
  | O => None
  | S fuel' =>
      match next w it with
      | (Some x, it') => l ← enumerate fuel' w it'; Some (x :: l)
      | (None, _) => Some []
      end
  end.


(** [for (const value of other) this.heap.push(value)]; [None] when
    the fuel runs out. *)
Fixpoint merge_loop (fuel : nat) (w : World T) (this : nat) (it : Iter)
    : option (World T) :=
  match fuel with
  | O => None
  | S fuel' =>
      match next w it with
      | (Some value, it') =>
          o ← objects w !! this;
          h ← arrays w !! heap o;
          merge_loop fuel' (store w (heap o) (JsArray.push h value))
                     this it'
      | (None, _) => Some w
      end
  end.

Definition merge (fuel : nat) (w : World T) (this other : nat)
    : option (World T) :=
  w1 ← merge_loop fuel w this (iterator w other);
  o ← objects w1 !! this;
  h ← arrays w1 !! heap o;
  Some (store w1 (heap o) (heapify (compare o) h)).

(** [toSortedArray()]: [tempHeap] is a new array holding a copy; the loop
    then pops the array [this.heap] refers to until it is empty, in place;
    at the end the field is bound to [tempHeap]. *)
Definition toSortedArray (w : World T) (this : nat)
    : option (World T * list T) :=
  o ← objects w !! this;
  h ← arrays w !! heap o;
  let tempHeap := length (arrays w) in
  let w1 := {| arrays := arrays w ++ [h]; objects := objects w |} in
  let '(h', sorted) := drain_loop (compare o) (length h) h [] in
  let w2 := store w1 (heap o) h' in
  Some ({| arrays := arrays w2;
           objects := <[this := {| heap := tempHeap;
                                   compare := compare o |}]> (objects w2) |},
        sorted).

(** Every queue refers to an array of the world and no two queues share
    one: the constructor and [clear] bind a queue to a new array, and no
    method hands the array of a queue to another queue. *)
Definition wf (w : World T) : Prop :=
  (forall i o, objects w !! i = Some o -> (heap o < length (arrays w))%nat)
  /\ (forall i j oi oj,
        objects w !! i = Some oi -> objects w !! j = Some oj ->
        heap oi = heap oj -> i = j).

End Methods.

End Store.

(** ** Example states used to instantiate the theorems *)

(** A state reached by constructing from [[5;3;7;1;9;2]], pushing [4] and
    removing [3]. *)
Definition example_state : list Z :=
  call (defaultComparator Min) (Remove 3)
    (call (defaultComparator Min) (Push 4)
       (construct (defaultComparator Min) (Some [5; 3; 7; 1; 9; 2]))).

(** Elements are pairs of a priority and a label, compared by priority. *)
Definition byPriority : Comparator (Z * Z) := fun a b => fst a - fst b.

(** A world with two queues: a min queue built from [[5;3;7]] and a max
    queue built from [[2;8;1]]. *)
Definition example_world : Store.World Z :=
  fst (Store.new
         (fst (Store.new Store.empty (defaultComparator Min)
                 (Some [5; 3; 7])))
         (defaultComparator Max) (Some [2; 8; 1])).



(** ** Facts about arrays *)

Section ArrayFacts.

Context {A : Type}.
Implicit Types (h : list A) (i j k : Z).

Lemma get_Some h i a : get h i = Some a -> 0 <= i < len h.
Proof.
  unfold get, len. case_decide; [|done].
  intros Hl%lookup_lt_Some. lia.
Qed.

Lemma get_None h i : ~ (0 <= i < len h) -> get h i = None.
Proof.
  unfold get, len. intros Hi. case_decide; [|done].
  apply lookup_ge_None. lia.
Qed.

Lemma get_in_range h i : 0 <= i < len h -> exists a, get h i = Some a.
Proof.
  unfold get, len. intros Hi. case_decide; [|lia].
  destruct (lookup_lt_is_Some_2 h (Z.to_nat i)) as [a Ha]; [lia|eauto].
Qed.

Lemma get_of_nat h (n : nat) : get h (Z.of_nat n) = h !! n.
Proof. unfold get. case_decide; [|lia]. by rewrite Nat2Z.id. Qed.

Lemma get_elem_of h i a : get h i = Some a -> a ∈ h.
Proof.
  unfold get. case_decide; [|done]. intros Hl.
  apply list_elem_of_lookup. eauto.
Qed.

Lemma elem_of_get h a : a ∈ h -> exists i, get h i = Some a.
Proof.
  intros [n Hn]%list_elem_of_lookup. exists (Z.of_nat n).
  by rewrite get_of_nat.
Qed.

Lemma length_set h i x : length (set h i x) = length h.
Proof. unfold set. case_decide; [apply length_insert|done]. Qed.

Lemma len_set h i x : len (set h i x) = len h.
Proof. unfold len. by rewrite length_set. Qed.

Lemma get_set_eq h i x : 0 <= i < len h -> get (set h i x) i = Some x.
Proof.
  unfold get, set, len. intros Hi. case_decide; [|lia].
  apply list_lookup_insert_eq. lia.
Qed.

Lemma get_set_ne h i j x : i <> j -> get (set h i x) j = get h j.
Proof.
  unfold get, set. intros Hne. repeat case_decide; try done.
  apply list_lookup_insert_ne. lia.
Qed.

Lemma get_set h i j x :
  0 <= i < len h ->
  get (set h i x) j = if decide (j = i) then Some x else get h j.
Proof.
  intros Hi. case_decide as Hj.
  - subst. by apply get_set_eq.
  - by apply get_set_ne.
Qed.

Lemma len_push h x : len (JsArray.push h x) = len h + 1.
Proof. unfold len, JsArray.push. rewrite length_app. simpl. lia. Qed.

Lemma get_push h x i :
  get (JsArray.push h x) i
  = if decide (i = len h) then Some x else get h i.
Proof.
  unfold get, JsArray.push, len. case_decide as Hi.
  - case_decide as He.
    + subst. rewrite Nat2Z.id. apply list_lookup_middle. done.
    + destruct (decide (i < Z.of_nat (length h))).
      * apply lookup_app_l. lia.
      * rewrite !lookup_ge_None_2; [done|lia|].
        rewrite length_app. simpl. lia.
  - case_decide; [lia|done].
Qed.

Lemma length_array_pop h : length (fst (JsArray.pop h)) = Nat.pred (length h).
Proof. simpl. rewrite length_take. lia. Qed.

Lemma len_array_pop h : h <> [] -> len (fst (JsArray.pop h)) = len h - 1.
Proof.
  intros Hne. unfold len. rewrite length_array_pop.
  destruct h; [done|]. simpl. lia.
Qed.

Lemma get_array_pop h i :
  i < len h - 1 -> get (fst (JsArray.pop h)) i = get h i.
Proof.
  unfold get, len. simpl. intros Hi. case_decide; [|done].
  apply lookup_take_lt. lia.
Qed.

Lemma array_pop_last h : snd (JsArray.pop h) = get h (len h - 1).
Proof.
  simpl. rewrite last_lookup. unfold get, len.
  destruct h as [|x t]; [done|].
  case_decide; [|simpl in *; lia].
  f_equal. simpl length. lia.
Qed.

Lemma array_pop_snoc h x :
  snd (JsArray.pop h) = Some x -> h = fst (JsArray.pop h) ++ [x].
Proof.
  simpl. intros [l' ->]%last_Some.
  rewrite length_app. simpl.
  replace (Nat.pred (length l' + 1)) with (length l') by lia.
  by rewrite take_app_length.
Qed.

(** Overwriting two positions with each other's values permutes. *)
Lemma insert_cons_perm (t : list A) (n : nat) (a b : A) :
  t !! n = Some b -> b :: <[n := a]> t ≡ₚ a :: t.
Proof.
  revert n. induction t as [|y t IH]; intros [|n] Hn; simplify_eq/=.
  - apply Permutation_swap.
  - rewrite Permutation_swap. rewrite (IH n Hn). apply Permutation_swap.
Qed.

Lemma insert_insert_perm (l : list A) (n m : nat) (a b : A) :
  l !! n = Some a -> l !! m = Some b ->
  <[m := a]> (<[n := b]> l) ≡ₚ l.
Proof.
  revert n m. induction l as [|x l IH]; intros [|n] [|m] Hn Hm;
    simplify_eq/=; try done.
  - by apply insert_cons_perm.
  - symmetry. rewrite <- (insert_cons_perm l n b a Hn) at 1. done.
  - f_equiv. by apply IH.
Qed.

End ArrayFacts.

(** ** Index arithmetic *)

Lemma child_lt i c : 0 <= i -> child i c -> i < c.
Proof. unfold child, getLeftChildIndex, getRightChildIndex. lia. Qed.

Lemma child_inj i j c : child i c -> child j c -> i = j.
Proof. unfold child, getLeftChildIndex, getRightChildIndex. lia. Qed.

Lemma parent_child k :
  k > 0 -> child (getParentIndex k) k /\ 0 <= getParentIndex k < k.
Proof.
  unfold child, getLeftChildIndex, getRightChildIndex, getParentIndex.
  intros Hk. pose proof (Z.div_mod (k - 1) 2 ltac:(lia)) as Hd.
  pose proof (Z.mod_pos_bound (k - 1) 2 ltac:(lia)). lia.
Qed.

Lemma child_parent i c : 0 <= i -> child i c -> getParentIndex c = i.
Proof.
  intros Hi Hc. destruct (parent_child c) as [Hp _].
  - pose proof (child_lt _ _ Hi Hc). lia.
  - eapply child_inj; eauto.
Qed.

Lemma getParentIndex_root : getParentIndex 0 = -1.
Proof. reflexivity. Qed.

(** ** The corrective passes restore the heap property *)

Section HeapFacts.

Context {T : Type} `{EqDecision T}.
Variable compare : Comparator T.
Hypothesis Hanti : sign_antisym compare.
Hypothesis Htrans : le_trans compare.

Implicit Types (h : list T) (i j k c p t lo : Z).

Local Abbreviation ordered := (ordered compare).
Local Abbreviation heap_from := (heap_from compare).
Local Abbreviation outranks := (outranks compare).

Lemma cmp_refl a : compare a a <= 0.
Proof. pose proof (Hanti a a). lia. Qed.

Lemma cmp_flip a b : ~ compare a b < 0 -> compare b a <= 0.
Proof. pose proof (Hanti a b). lia. Qed.

Lemma cmp_le_not_lt a b : compare a b <= 0 -> ~ compare b a < 0.
Proof. pose proof (Hanti a b). lia. Qed.

Lemma cmp_lt_trans a b x :
  compare a b < 0 -> compare b x <= 0 -> compare a x < 0.
Proof.
  intros Hab Hbc. destruct (decide (compare a x < 0)) as [|Hn]; [done|].
  apply cmp_flip in Hn.
  pose proof (Htrans _ _ _ Hbc Hn) as Hba.
  apply cmp_le_not_lt in Hba. lia.
Qed.

Lemma outranks_true h i j :
  outranks h i j = true ->
  exists a b, get h i = Some a /\ get h j = Some b /\ compare a b < 0.
Proof.
  unfold Heap.outranks. destruct (get h i) as [a|], (get h j) as [b|];
    try done.
  intros Hb%bool_decide_eq_true. eauto.
Qed.

Lemma outranks_false h i j a b :
  outranks h i j = false -> get h i = Some a -> get h j = Some b ->
  compare b a <= 0.
Proof.
  unfold Heap.outranks. intros Ho Hi Hj. rewrite Hi, Hj in Ho.
  apply bool_decide_eq_false in Ho. by apply cmp_flip.
Qed.

Lemma length_swap h i j : length (swap h i j) = length h.
Proof.
  unfold swap. destruct (get h i), (get h j); try done.
  by rewrite !length_set.
Qed.

Lemma len_swap h i j : len (swap h i j) = len h.
Proof. unfold len. by rewrite length_swap. Qed.

Lemma get_swap h i j a b k :
  get h i = Some a -> get h j = Some b ->
  get (swap h i j) k
  = if decide (k = j) then Some a
    else if decide (k = i) then Some b else get h k.
Proof.
  intros Hi Hj. unfold swap. rewrite Hi, Hj.
  pose proof (get_Some _ _ _ Hi). pose proof (get_Some _ _ _ Hj).
  rewrite get_set by (by rewrite len_set).
  case_decide; [done|]. by rewrite get_set.
Qed.

Lemma swap_perm h i j : swap h i j ≡ₚ h.
Proof.
  unfold swap. destruct (get h i) as [a|] eqn:Hi; [|done].
  destruct (get h j) as [b|] eqn:Hj; [|done].
  unfold get, set in *. repeat case_decide; try done.
  by apply insert_insert_perm.
Qed.

Lemma bubbleUp_loop_perm fuel h k : bubbleUp_loop compare fuel h k ≡ₚ h.
Proof.
  revert h k. induction fuel as [|fuel IH]; intros h k; simpl; [done|].
  case_decide; [|done].
  destruct (outranks _ _ _); [|done].
  rewrite IH. apply swap_perm.
Qed.

Lemma bubbleDown_loop_perm fuel h k :
  bubbleDown_loop compare fuel h k ≡ₚ h.
Proof.
  revert h k. induction fuel as [|fuel IH]; intros h k; simpl; [done|].
  case_decide; [done|].
  rewrite IH. apply swap_perm.
Qed.

Lemma bubbleUp_perm h k : bubbleUp compare h k ≡ₚ h.
Proof. apply bubbleUp_loop_perm. Qed.

Lemma bubbleDown_perm h k : bubbleDown compare h k ≡ₚ h.
Proof. apply bubbleDown_loop_perm. Qed.

Lemma heapify_loop_perm n h : heapify_loop compare n h ≡ₚ h.
Proof.
  revert h. induction n as [|n IH]; intros h; simpl; [done|].
  rewrite IH. apply bubbleDown_perm.
Qed.

Lemma heapify_perm h : heapify compare h ≡ₚ h.
Proof. apply heapify_loop_perm. Qed.

Lemma perm_len h h' : h ≡ₚ h' -> len h = len h'.
Proof. unfold len. by intros ->. Qed.

(** *** Sinking *)

(** What [targetIdx] selects. *)
Lemma targetIdx_spec h k :
  0 <= k ->
  let t := targetIdx compare h k in
  (t = k /\ forall c, child k c -> ordered h k c)
  \/ (child k t /\ outranks h t k = true
      /\ forall c, child k c -> ordered h t c).
Proof.
  intros Hk. unfold targetIdx. cbv zeta.
  set (l := getLeftChildIndex k). set (r := getRightChildIndex k).
  assert (Hchild : forall c, child k c -> c = l \/ c = r) by done.
  assert (Hlr : l <> k /\ r <> k /\ l <> r).
  { unfold l, r, getLeftChildIndex, getRightChildIndex. lia. }
  destruct ((l <? len h) && outranks h l k) eqn:HL.
  - apply andb_true_iff in HL as [_ HL].
    destruct (outranks_true _ _ _ HL) as (al & ak & Hal & Hak & Hlt).
    destruct ((r <? len h) && outranks h r l) eqn:HR.
    + apply andb_true_iff in HR as [_ HR].
      destruct (outranks_true _ _ _ HR) as (ar & al' & Har & Hal' & Hlt').
      simplify_eq. right. split; [by right|]. split.
      * unfold Heap.outranks. rewrite Har, Hak.
        apply bool_decide_eq_true. eapply cmp_lt_trans; [done|lia].
      * intros c [->| ->]%Hchild a b Ha Hb; simplify_eq;
          [lia|apply cmp_refl].
    + right. split; [by left|]. split; [done|].
      intros c [->| ->]%Hchild a b Ha Hb; simplify_eq; [apply cmp_refl|].
      apply andb_false_iff in HR as [HR|HR].
      * apply Z.ltb_ge in HR. apply get_Some in Hb. lia.
      * eapply outranks_false; eauto.
  - assert (HL' : forall b, get h l = Some b ->
              forall a, get h k = Some a -> compare a b <= 0).
    { intros b Hb a Ha. apply andb_false_iff in HL as [HL|HL].
      - apply Z.ltb_ge in HL. apply get_Some in Hb. lia.
      - eapply outranks_false; eauto. }
    destruct ((r <? len h) && outranks h r k) eqn:HR.
    + apply andb_true_iff in HR as [_ HR].
      destruct (outranks_true _ _ _ HR) as (ar & ak & Har & Hak & Hlt).
      right. split; [by right|]. split; [done|].
      intros c [->| ->]%Hchild a b Ha Hb; simplify_eq; [|apply cmp_refl].
      eapply Htrans; [|by eapply HL']. lia.
    + left. split; [done|].
      intros c [->| ->]%Hchild a b Ha Hb; [by eapply HL'|].
      apply andb_false_iff in HR as [HR|HR].
      * apply Z.ltb_ge in HR. apply get_Some in Hb. lia.
      * eapply outranks_false; eauto.
Qed.
Local Abbreviation down_inv := (down_inv compare).
Local Abbreviation up_inv := (up_inv compare).

Lemma targetIdx_cases h k :
  targetIdx compare h k = k
  \/ (targetIdx compare h k = getLeftChildIndex k
      /\ getLeftChildIndex k < len h)
  \/ (targetIdx compare h k = getRightChildIndex k
      /\ getRightChildIndex k < len h).
Proof.
  unfold targetIdx. cbv zeta.
  destruct (getLeftChildIndex k <? len h) eqn:HL;
    destruct (getRightChildIndex k <? len h) eqn:HR; simpl;
    try apply Z.ltb_lt in HL; try apply Z.ltb_lt in HR;
    repeat match goal with |- context [if ?b then _ else _] => destruct b end;
    auto.
Qed.

Lemma down_inv_swap lo k t h :
  0 <= lo <= k -> down_inv lo k h -> child k t -> outranks h t k = true ->
  (forall c, child k c -> ordered h t c) ->
  down_inv lo t (swap h k t).
Proof.
  intros Hlo [H1 H2] Hkt Hout Hmin.
  destruct (outranks_true _ _ _ Hout) as (vt & vk & Ht & Hk & Hlt).
  pose proof (child_lt k t ltac:(lia) Hkt) as Hktlt.
  split.
  - intros i c Hi Hne Hc a b.
    pose proof (child_lt i c ltac:(lia) Hc).
    rewrite !(get_swap _ _ _ _ _ _ Hk Ht).
    repeat case_decide; intros; simplify_eq; try lia.
    + by eapply Hmin.
    + assert (i = k) by (eapply child_inj; eauto). done.
    + eapply (H2 i t); eauto.
    + eapply (H1 i c); eauto.
  - intros p c Hp Hpt Hc a b.
    assert (p = k) as -> by (eapply child_inj; eauto).
    pose proof (child_lt t c ltac:(lia) Hc).
    rewrite !(get_swap _ _ _ _ _ _ Hk Ht).
    repeat case_decide; intros; simplify_eq; try lia.
    eapply (H1 t c); eauto; lia.
Qed.

Lemma bubbleDown_loop_heap fuel h k lo :
  0 <= lo <= k -> len h - k <= Z.of_nat fuel -> down_inv lo k h ->
  heap_from lo (bubbleDown_loop compare fuel h k).
Proof.
  revert h k. induction fuel as [|fuel IH]; intros h k Hlo Hfuel Hinv.
  - simpl. destruct Hinv as [H1 _]. intros i c Hi Hc a b Ha Hb.
    destruct (decide (i = k)) as [->|]; [|by eapply H1].
    apply get_Some in Ha. lia.
  - simpl. destruct (targetIdx_spec h k ltac:(lia))
      as [[Ht Hord]|(Hc & Hout & Hmin)].
    + rewrite decide_True by done. destruct Hinv as [H1 _].
      intros i c Hi Hc. destruct (decide (i = k)) as [->|]; eauto.
    + pose proof (child_lt k _ ltac:(lia) Hc).
      rewrite decide_False by lia.
      apply IH; [lia|rewrite len_swap; lia|].
      by apply down_inv_swap.
Qed.

(** Adequacy of the fuel of [bubbleDown]: more fuel changes nothing. *)
Lemma bubbleDown_loop_fuel fuel1 fuel2 h k :
  0 <= k -> len h - k <= Z.of_nat fuel1 -> len h - k <= Z.of_nat fuel2 ->
  bubbleDown_loop compare fuel1 h k = bubbleDown_loop compare fuel2 h k.
Proof.
  assert (Hstop : forall fuel h k, 0 <= k -> len h <= k ->
            bubbleDown_loop compare fuel h k = h).
  { intros [|fuel] h' k' Hk' Hlen; simpl; [done|].
    rewrite decide_True; [done|].
    unfold getLeftChildIndex, getRightChildIndex in *.
    destruct (targetIdx_cases h' k') as [?|[[_ ?]|[_ ?]]];
      unfold getLeftChildIndex, getRightChildIndex in *; [done|lia..]. }
  revert fuel2 h k. induction fuel1 as [|fuel1 IH]; intros fuel2 h k Hk H1 H2.
  - rewrite !Hstop by lia. done.
  - destruct fuel2 as [|fuel2]; [rewrite !Hstop by lia; done|].
    simpl. case_decide as Ht; [done|].
    assert (k < targetIdx compare h k).
    { destruct (targetIdx_cases h k) as [?|[[-> _]|[-> _]]];
        unfold getLeftChildIndex, getRightChildIndex; [done|lia..]. }
    apply IH; rewrite ?len_swap; lia.
Qed.

Lemma bubbleDown_heap h k lo :
  0 <= lo <= k -> down_inv lo k h -> heap_from lo (bubbleDown compare h k).
Proof.
  intros Hlo Hinv. apply bubbleDown_loop_heap; [done| |done].
  unfold len. lia.
Qed.

(** *** Floating *)

Lemma up_inv_swap k h :
  k > 0 -> up_inv k h -> outranks h k (getParentIndex k) = true ->
  up_inv (getParentIndex k) (swap h k (getParentIndex k)).
Proof.
  intros Hk0 [H1 H2] Hout.
  destruct (parent_child k Hk0) as [Hpk Hp].
  set (p := getParentIndex k) in *.
  destruct (outranks_true _ _ _ Hout) as (vk & vp & Hk & Hpv & Hlt).
  split.
  - intros i c Hi Hc Hne a b.
    pose proof (child_lt _ _ Hi Hc).
    rewrite !(get_swap _ _ _ _ _ _ Hk Hpv).
    repeat case_decide; intros; simplify_eq; try lia.
    + eapply (Htrans _ vp); [lia|]. eapply (H1 p c); eauto.
    + eapply (H2 p c); eauto; lia.
    + assert (i = p) by (eapply child_inj; eauto). done.
    + eapply (H1 i c); eauto.
  - intros g c Hg Hgp Hc a b.
    pose proof (child_lt _ _ Hg Hgp). pose proof (child_lt p c ltac:(lia) Hc).
    rewrite !(get_swap _ _ _ _ _ _ Hk Hpv).
    repeat case_decide; intros; simplify_eq; try lia.
    + eapply (H1 g p); eauto; lia.
    + destruct (get_in_range h p ltac:(by eapply get_Some)) as [vp' Hvp'].
      simplify_eq.
      assert (compare a vp <= 0) by (eapply (H1 g p); eauto; lia).
      assert (compare vp b <= 0) by (eapply (H1 p c); eauto; lia).
      by eapply Htrans.
Qed.

Lemma up_inv_done k h :
  up_inv k h ->
  (k > 0 -> ordered h (getParentIndex k) k) ->
  heap_from 0 h.
Proof.
  intros [H1 _] Hord i c Hi Hc.
  destruct (decide (c = k)) as [->|]; [|by eapply H1].
  pose proof (child_lt _ _ Hi Hc).
  rewrite <- (child_parent _ _ Hi Hc). apply Hord. lia.
Qed.

Lemma bubbleUp_loop_heap fuel h k :
  k < Z.of_nat fuel -> up_inv k h ->
  heap_from 0 (bubbleUp_loop compare fuel h k).
Proof.
  revert h k. induction fuel as [|fuel IH]; intros h k Hfuel Hinv.
  - simpl. eapply up_inv_done; [done|lia].
  - simpl. case_decide as Hk; [|eapply up_inv_done; [done|lia]].
    destruct (parent_child k Hk) as [Hpk Hp].
    destruct (outranks h k (getParentIndex k)) eqn:Hout.
    + apply IH; [lia|]. by apply up_inv_swap.
    + eapply up_inv_done; [done|]. intros _ a b Ha Hb.
      eapply outranks_false; eauto.
Qed.

(** Adequacy of the fuel of [bubbleUp]. *)
Lemma bubbleUp_loop_fuel fuel1 fuel2 h k :
  k < Z.of_nat fuel1 -> k < Z.of_nat fuel2 ->
  bubbleUp_loop compare fuel1 h k = bubbleUp_loop compare fuel2 h k.
Proof.
  revert fuel2 h k. induction fuel1 as [|fuel1 IH]; intros fuel2 h k H1 H2.
  - destruct fuel2; simpl; [done|]. rewrite decide_False by lia. done.
  - destruct fuel2 as [|fuel2]; simpl.
    + rewrite decide_False by lia. done.
    + case_decide as Hk; [|done].
      destruct (parent_child k Hk) as [_ Hp].
      destruct (outranks _ _ _); [|done]. apply IH; lia.
Qed.

Lemma bubbleUp_heap h k :
  k < len h -> up_inv k h -> heap_from 0 (bubbleUp compare h k).
Proof. intros Hk Hinv. by apply bubbleUp_loop_heap. Qed.

(** *** The invariant in its three forms *)

Lemma heap_from_ok h : heap_from 0 h <-> heap_ok compare h.
Proof.
  split.
  - intros Hh i c a b Hi Hc _ Ha Hb. eapply (Hh i c); eauto. lia.
  - intros Hh i c Hi Hc a b Ha Hb.
    pose proof (get_Some _ _ _ Ha). pose proof (get_Some _ _ _ Hb).
    eapply (Hh i c); eauto. lia.
Qed.

Lemma is_heap_spec h : is_heap compare h = true <-> heap_from 0 h.
Proof.
  unfold is_heap. rewrite forallb_forall. split.
  - intros Hall i c Hi Hc a b Ha Hb.
    pose proof (child_lt _ _ Hi Hc). pose proof (get_Some _ _ _ Hb) as Hr.
    unfold len in Hr.
    specialize (Hall (Z.to_nat c)).
    rewrite Z2Nat.id, (child_parent _ _ Hi Hc), Ha, Hb in Hall by lia.
    assert (Hin : In (Z.to_nat c) (seq 1 (Nat.pred (length h))))
      by (apply in_seq; lia).
    apply Hall in Hin. by apply bool_decide_eq_true in Hin.
  - intros Hh n [Hn _]%in_seq.
    destruct (get h (getParentIndex _)) as [a|] eqn:Ha; [|done].
    destruct (get h (Z.of_nat n)) as [b|] eqn:Hb; [|done].
    apply bool_decide_eq_true.
    destruct (parent_child (Z.of_nat n)) as [Hc Hp]; [lia|].
    eapply (Hh (getParentIndex (Z.of_nat n)) (Z.of_nat n)); eauto; lia.
Qed.

Lemma heap_from_nil lo : heap_from lo [].
Proof.
  intros i c _ _ a b Ha. apply get_Some in Ha. unfold len in Ha.
  simpl in Ha. lia.
Qed.

Lemma heap_from_weaken lo lo' h : lo <= lo' -> heap_from lo h -> heap_from lo' h.
Proof. intros Hlo Hh i c Hi. apply Hh. lia. Qed.

(** *** heapify *)

Lemma heapify_loop_heap n h :
  heap_from (Z.of_nat n) h -> heap_from 0 (heapify_loop compare n h).
Proof.
  revert h. induction n as [|n IH]; intros h Hh; simpl; [done|].
  apply IH. apply bubbleDown_heap; [lia|]. split.
  - intros i c Hi Hne Hc. apply Hh; [lia|done].
  - intros p c Hp Hpn _. pose proof (child_lt p _ ltac:(lia) Hpn). lia.
Qed.

Lemma heap_from_half h : heap_from (Z.of_nat (Z.to_nat (len h / 2))) h.
Proof.
  intros i c Hi Hc a b _ Hb. apply get_Some in Hb. exfalso.
  assert (0 <= len h) by (unfold len; lia).
  rewrite Z2Nat.id in Hi by (apply Z.div_pos; lia).
  pose proof (Z.div_mod (len h) 2 ltac:(lia)).
  pose proof (Z.mod_pos_bound (len h) 2 ltac:(lia)).
  unfold child, getLeftChildIndex, getRightChildIndex in Hc. lia.
Qed.

Lemma heapify_heap h : heap_from 0 (heapify compare h).
Proof. apply heapify_loop_heap, heap_from_half. Qed.

(** *** Writing one slot of a heap *)

Lemma set_down_inv h idx x :
  heap_from 0 h -> 0 <= idx < len h ->
  (forall v, get h (getParentIndex idx) = Some v -> idx > 0 ->
             compare v x <= 0) ->
  down_inv 0 idx (set h idx x).
Proof.
  intros Hh Hidx Hpar.
  destruct (get_in_range h idx Hidx) as [v Hv]. split.
  - intros i c Hi Hne Hc a b. pose proof (child_lt _ _ Hi Hc).
    rewrite !get_set by done.
    rewrite (decide_False (P := i = idx)) by done.
    case_decide; intros Ha Hb; simplify_eq.
    + eapply Hpar; [|lia]. by rewrite (child_parent _ _ Hi Hc).
    + eapply (Hh i c); eauto.
  - intros p c Hp Hpi Hc a b.
    pose proof (child_lt _ _ Hp Hpi). pose proof (child_lt idx c ltac:(lia) Hc).
    rewrite !get_set by done.
    rewrite !decide_False by lia. intros Ha Hb.
    eapply (Htrans _ v); [eapply (Hh p idx)|eapply (Hh idx c)]; eauto; lia.
Qed.

Lemma set_up_inv h idx x :
  heap_from 0 h -> 0 <= idx < len h ->
  (forall v, get h idx = Some v -> compare x v <= 0) ->
  up_inv idx (set h idx x).
Proof.
  intros Hh Hidx Hx.
  destruct (get_in_range h idx Hidx) as [v Hv]. split.
  - intros i c Hi Hc Hne a b.
    rewrite !get_set by done.
    rewrite (decide_False (P := c = idx)) by done.
    case_decide; intros Ha Hb; simplify_eq.
    + eapply (Htrans _ v); [by apply Hx|]. eapply (Hh idx c); eauto.
    + eapply (Hh i c); eauto.
  - intros p c Hp Hpi Hc a b.
    pose proof (child_lt _ _ Hp Hpi). pose proof (child_lt idx c ltac:(lia) Hc).
    rewrite !get_set by done.
    rewrite !decide_False by lia. intros Ha Hb.
    eapply (Htrans _ v); [eapply (Hh p idx)|eapply (Hh idx c)]; eauto; lia.
Qed.

Lemma get_array_pop_Some h i a :
  get (fst (JsArray.pop h)) i = Some a -> get h i = Some a.
Proof.
  intros Hg. pose proof (get_Some _ _ _ Hg) as Hr.
  unfold len in Hr. rewrite length_array_pop in Hr.
  rewrite <- Hg. symmetry. apply get_array_pop. unfold len. lia.
Qed.

Lemma array_pop_heap h : heap_from 0 h -> heap_from 0 (fst (JsArray.pop h)).
Proof.
  intros Hh i c Hi Hc a b Ha%get_array_pop_Some Hb%get_array_pop_Some.
  eapply (Hh i c); eauto.
Qed.

(** *** Every public mutating call preserves the heap property *)

Lemma push_heap h v : heap_from 0 h -> heap_from 0 (fst (push compare h v)).
Proof.
  intros Hh. simpl. apply bubbleUp_heap; [lia|].
  rewrite len_push. replace (len h + 1 - 1) with (len h) by lia. split.
  - intros i c Hi Hc Hne a b. pose proof (child_lt _ _ Hi Hc).
    rewrite !get_push. rewrite (decide_False (P := c = len h)) by done.
    intros Ha Hb. pose proof (get_Some _ _ _ Hb).
    rewrite decide_False in Ha by lia. eapply (Hh i c); eauto.
  - intros p c Hp _ Hc a b _. assert (0 <= len h) by (unfold len; lia).
    pose proof (child_lt (len h) c ltac:(lia) Hc).
    rewrite get_push, decide_False by lia.
    intros Hb%get_Some. lia.
Qed.

Lemma replace_root_heap h x :
  heap_from 0 h -> 0 < len h -> heap_from 0 (bubbleDown compare (set h 0 x) 0).
Proof.
  intros Hh Hlen. apply bubbleDown_heap; [lia|].
  apply set_down_inv; [done|lia|]. intros; lia.
Qed.

Lemma pop_heap h : heap_from 0 h -> heap_from 0 (fst (pop compare h)).
Proof.
  intros Hh. unfold pop. destruct (isEmpty h) eqn:He; [done|].
  case_decide as H1; [by apply array_pop_heap|].
  apply bool_decide_eq_false in He.
  assert (h <> []) as Hne by (intros ->; done).
  destruct (JsArray.pop h) as [h1 moved] eqn:Hp.
  assert (h1 = fst (JsArray.pop h)) as -> by (by rewrite Hp).
  destruct moved as [x|]; simpl; [|by apply array_pop_heap].
  apply replace_root_heap; [by apply array_pop_heap|].
  pose proof (len_array_pop h Hne) as Hl. simpl in Hl. rewrite Hl.
  unfold len in *. lia.
Qed.

Lemma replace_heap h v :
  heap_from 0 h -> heap_from 0 (fst (replace compare h v)).
Proof.
  intros Hh. unfold replace. destruct (isEmpty h) eqn:He.
  - by apply push_heap.
  - apply bool_decide_eq_false in He. simpl.
    apply replace_root_heap; [done|]. unfold len in *. lia.
Qed.

Lemma pushPop_heap h v :
  heap_from 0 h -> heap_from 0 (fst (pushPop compare h v)).
Proof.
  intros Hh. unfold pushPop.
  destruct (isEmpty h || outranksTop compare h v); [done|].
  by apply replace_heap.
Qed.

(** *** remove *)

Lemma indexOf_from_spec h v i :
  indexOf_from h v i <> -1 -> 0 <= i ->
  exists n : nat,
    indexOf_from h v i = i + Z.of_nat n /\ h !! n = Some v
    /\ forall m : nat, (m < n)%nat -> h !! m <> Some v.
Proof.
  revert i. induction h as [|x t IH]; intros i Hne Hi; simpl in *; [done|].
  case_decide as Hx.
  - subst. exists 0%nat. split; [lia|]. split; [done|]. intros m Hm. lia.
  - destruct (IH (i + 1)) as (n & Hn & Hv & Hfirst); [done|lia|].
    exists (S n). split; [lia|]. split; [done|].
    intros [|m] Hm; simpl; [by intros [= ->]|]. apply Hfirst. lia.
Qed.

Lemma indexOf_from_range h v i :
  0 <= i -> indexOf_from h v i = -1 \/ i <= indexOf_from h v i.
Proof.
  revert i. induction h as [|x t IH]; intros i Hi; simpl; [by left|].
  case_decide; [right; lia|]. destruct (IH (i + 1)); [lia|by left|right; lia].
Qed.

Lemma indexOf_from_miss h v i :
  0 <= i -> (indexOf_from h v i = -1 <-> v ∉ h).
Proof.
  revert i. induction h as [|x t IH]; intros i Hi; simpl.
  - split; [intros _; apply not_elem_of_nil|done].
  - rewrite not_elem_of_cons. case_decide as Hx.
    + subst. split; [lia|]. intros [? _]. done.
    + rewrite IH by lia. split; [intros ?; split; by auto|by intros [_ ?]].
Qed.

(** [indexOf] finds the first position holding the value, if any. *)
Lemma indexOf_found h v :
  indexOf h v <> -1 ->
  0 <= indexOf h v < len h /\ get h (indexOf h v) = Some v
  /\ forall j, 0 <= j < indexOf h v -> get h j <> Some v.
Proof.
  unfold indexOf. intros Hne.
  destruct (indexOf_from_spec h v 0) as (n & Hn & Hv & Hfirst); [done|lia|].
  rewrite Hn. replace (0 + Z.of_nat n) with (Z.of_nat n) by lia.
  rewrite get_of_nat. split; [|split; [done|]].
  - apply lookup_lt_Some in Hv. unfold len. lia.
  - intros j Hj. replace j with (Z.of_nat (Z.to_nat j)) by lia.
    rewrite get_of_nat. apply Hfirst. lia.
Qed.

Lemma indexOf_missing h v : indexOf h v = -1 <-> v ∉ h.
Proof. apply indexOf_from_miss. lia. Qed.

Lemma remove_heap h v :
  heap_from 0 h -> heap_from 0 (fst (remove compare h v)).
Proof.
  intros Hh. unfold remove. case_decide as Hidx; [done|].
  case_decide as Hlast; [by apply array_pop_heap|].
  destruct (indexOf_found h v Hidx) as (Hr & _ & _).
  set (index := indexOf h v) in *.
  assert (h <> []) as Hne by (intros ->; unfold len in Hr; simpl in Hr; lia).
  pose proof (len_array_pop h Hne) as Hl.
  pose proof (array_pop_heap h Hh) as Hh1.
  destruct (JsArray.pop h) as [h1 moved] eqn:Hp. simpl in Hl, Hh1.
  destruct moved as [x|]; [|done].
  assert (Hin : 0 <= index < len h1) by lia.
  destruct ((getParentIndex index >=? 0)
            && outranks (set h1 index x) index (getParentIndex index))
    eqn:Hup; simpl.
  - apply andb_true_iff in Hup as [Hp0%Z.geb_le Hout].
    assert (index > 0) as Hpos.
    { destruct (decide (index = 0)) as [H0|]; [|lia].
      rewrite H0 in Hp0. by compute in Hp0. }
    destruct (parent_child index Hpos) as [Hc Hpar].
    destruct (outranks_true _ _ _ Hout) as (a & pv & Ha & Hpv & Hlt).
    rewrite get_set_eq in Ha by done. rewrite get_set_ne in Hpv by lia.
    simplify_eq.
    apply bubbleUp_heap; [by rewrite len_set; lia|].
    apply set_up_inv; [done..|].
    intros w Hw. eapply (Htrans _ pv); [lia|].
    eapply (Hh1 (getParentIndex index) index); eauto; lia.
  - apply bubbleDown_heap; [lia|].
    apply set_down_inv; [done..|].
    intros pv Hpv Hpos.
    destruct (parent_child index Hpos) as [Hc Hpar].
    apply andb_false_iff in Hup as [Hp0|Hout].
    + rewrite Z.geb_leb in Hp0. apply Z.leb_gt in Hp0. lia.
    + eapply outranks_false; [done| |].
      * by apply get_set_eq.
      * rewrite get_set_ne by lia. done.
Qed.

Lemma merge_heap h other : heap_from 0 (merge compare h other).
Proof. apply heapify_heap. Qed.

Lemma construct_heap initialValues :
  heap_from 0 (construct compare initialValues).
Proof.
  destruct initialValues as [vs|]; simpl; [|apply heap_from_nil].
  case_decide; [apply heapify_heap|apply heap_from_nil].
Qed.

Lemma call_heap (m : Call) h :
  heap_from 0 h -> heap_from 0 (call compare m h).
Proof.
  intros Hh. destruct m; simpl.
  - by apply push_heap.
  - by apply pop_heap.
  - by apply remove_heap.
  - by apply replace_heap.
  - by apply pushPop_heap.
  - apply merge_heap.
  - apply heap_from_nil.
  - unfold toSortedArray. by destruct (drain_loop _ _ _ _).
Qed.

Lemma reachable_heap_from h : reachable compare h -> heap_from 0 h.
Proof.
  induction 1 as [initialValues|m h _ IH].
  - apply construct_heap.
  - by apply call_heap.
Qed.

(** *** Pop order *)

Local Abbreviation cle := (cle compare).

Lemma push_perm h v : fst (push compare h v) ≡ₚ v :: h.
Proof.
  simpl. rewrite bubbleUp_perm. unfold JsArray.push.
  by rewrite Permutation_app_comm.
Qed.

Lemma pushAll_perm h vs : pushAll compare h vs ≡ₚ vs ++ h.
Proof.
  unfold pushAll. revert h. induction vs as [|v vs IH]; intros h; [done|].
  cbn [foldl]. rewrite IH, push_perm. simpl. by rewrite Permutation_middle.
Qed.

Lemma pushAll_heap h vs :
  heap_from 0 h -> heap_from 0 (pushAll compare h vs).
Proof.
  unfold pushAll. revert h. induction vs as [|v vs IH]; intros h Hh; [done|].
  cbn [foldl]. by apply IH, push_heap.
Qed.

(** On a non-empty array [pop] returns the root and keeps the rest. *)
Lemma pop_nonempty h :
  h <> [] ->
  exists x h', pop compare h = (h', Some x) /\ get h 0 = Some x
               /\ h ≡ₚ x :: h'.
Proof.
  intros Hne. destruct h as [|x t]; [done|]. exists x.
  unfold pop, isEmpty. rewrite (bool_decide_eq_false_2 (len (x :: t) = 0))
    by (unfold len; simpl; lia).
  case_decide as H1.
  - destruct t; [|unfold len in H1; simpl in H1; lia]. by exists [].
  - pose proof (array_pop_last (x :: t)) as Hlast.
    pose proof (len_array_pop (x :: t) Hne) as Hlen.
    pose proof (get_array_pop (x :: t) 0) as H0.
    destruct (JsArray.pop (x :: t)) as [h1 moved] eqn:Hp.
    cbn [fst snd] in *.
    assert (1 < len (x :: t)) as Hgt by (unfold len in *; simpl in *; lia).
    destruct (get_in_range (x :: t) (len (x :: t) - 1)) as [y Hy]; [lia|].
    rewrite Hy in Hlast. subst moved.
    pose proof (array_pop_snoc (x :: t) y) as Hsn.
    rewrite Hp in Hsn. cbn [fst snd] in Hsn. specialize (Hsn eq_refl).
    destruct h1 as [|x' t1]; [unfold len in *; simpl in *; lia|].
    simplify_eq/=. eexists. split; [done|]. split; [done|].
    rewrite bubbleDown_perm. unfold set. simpl.
    f_equiv. by rewrite Permutation_app_comm.
Qed.

(** The root of a heap comes first in the order. *)
Lemma root_min h x :
  heap_from 0 h -> get h 0 = Some x -> forall y, y ∈ h -> cle x y.
Proof.
  intros Hh Hx.
  assert (Hall : forall n : nat, forall i y,
             0 <= i <= Z.of_nat n -> get h i = Some y -> cle x y).
  { induction n as [|n IH]; intros i y Hi Hy.
    - assert (i = 0) as -> by lia. simplify_eq. apply cmp_refl.
    - destruct (decide (i = 0)) as [->|Hne].
      + simplify_eq. apply cmp_refl.
      + destruct (parent_child i ltac:(lia)) as [Hc Hp].
        pose proof (get_Some _ _ _ Hy).
        destruct (get_in_range h (getParentIndex i)) as [z Hz]; [lia|].
        eapply (Htrans _ z); [eapply IH; [|done]; lia|].
        eapply (Hh (getParentIndex i) i); eauto; lia. }
  intros y [i Hi]%elem_of_get. pose proof (get_Some _ _ _ Hi).
  eapply (Hall (Z.to_nat i)); [|done]. lia.
Qed.

Lemma drain_loop_spec fuel h acc :
  (length h <= fuel)%nat -> heap_from 0 h ->
  exists out,
    drain_loop compare fuel h acc = ([], acc ++ out)
    /\ out ≡ₚ h /\ StronglySorted cle out.
Proof.
  revert h acc. induction fuel as [|fuel IH]; intros h acc Hfuel Hh.
  - destruct h; [|simpl in Hfuel; lia]. exists []. simpl.
    rewrite app_nil_r. split; [done|]. split; [done|constructor].
  - simpl. case_decide as Hlen.
    + assert (h <> []) as Hne by (intros ->; by compute in Hlen).
      destruct (pop_nonempty h Hne) as (x & h' & Hpop & Hx & Hperm).
      pose proof (pop_heap h Hh) as Hh'. rewrite Hpop in *. simpl in Hh'.
      destruct (IH h' (JsArray.push acc x)) as (out & Hd & Hp & Hs);
        [|done|].
      { apply Permutation_length in Hperm. simpl in Hperm. lia. }
      exists (x :: out). rewrite Hd. unfold JsArray.push.
      rewrite <- app_assoc. split; [done|]. split; [by rewrite Hp|].
      constructor; [done|]. apply Forall_forall. intros y Hy.
      apply (root_min h x Hh Hx). rewrite Hperm, <- Hp. by right.
    + destruct h; [|unfold len in Hlen; simpl in Hlen; lia].
      exists []. rewrite app_nil_r. split; [done|]. split; [done|constructor].
Qed.

(** Draining a heap sorts it. *)
Lemma drain_sorted h :
  heap_from 0 h -> drain compare h ≡ₚ h /\ StronglySorted cle (drain compare h).
Proof.
  intros Hh. unfold drain.
  destruct (drain_loop_spec (length h) h [] ltac:(lia) Hh) as (out & -> & ?).
  done.
Qed.

(** Adequacy of the fuel of the drain loop: with the length of the array
    as fuel the loop ends on its own test, on the empty array. *)
Lemma drain_loop_empties fuel h acc :
  (length h <= fuel)%nat -> fst (drain_loop compare fuel h acc) = [].
Proof.
  revert h acc. induction fuel as [|fuel IH]; intros h acc Hfuel.
  - destruct h; [done|simpl in Hfuel; lia].
  - simpl. case_decide as Hlen.
    + assert (h <> []) as Hne by (intros ->; by compute in Hlen).
      destruct (pop_nonempty h Hne) as (x & h' & -> & _ & Hperm).
      apply IH. apply Permutation_length in Hperm. simpl in Hperm. lia.
    + destruct h; [done|unfold len in Hlen; simpl in Hlen; lia].
Qed.

Lemma toSortedArray_spec h :
  toSortedArray compare h = (h, drain compare h).
Proof.
  unfold toSortedArray, drain. by destruct (drain_loop _ _ _ _).
Qed.

(** *** Sizes *)

Lemma len_bubbleDown h k : len (bubbleDown compare h k) = len h.
Proof. apply perm_len, bubbleDown_perm. Qed.

Lemma len_bubbleUp h k : len (bubbleUp compare h k) = len h.
Proof. apply perm_len, bubbleUp_perm. Qed.

Lemma len_replace h v :
  len h <> 0 -> len (fst (replace compare h v)) = len h.
Proof.
  intros Hne. unfold replace, isEmpty.
  rewrite bool_decide_eq_false_2 by done. simpl.
  by rewrite len_bubbleDown, len_set.
Qed.

(** *** A node that no child outranks stays where it is *)

Lemma targetIdx_stay h k :
  (forall c, child k c -> outranks h c k = false) ->
  targetIdx compare h k = k.
Proof.
  intros Hno. unfold targetIdx. cbv zeta.
  rewrite (Hno (getLeftChildIndex k)) by (by left).
  rewrite andb_false_r.
  rewrite (Hno (getRightChildIndex k)) by (by right).
  by rewrite andb_false_r.
Qed.

Lemma bubbleDown_stay h k :
  targetIdx compare h k = k -> bubbleDown compare h k = h.
Proof.
  intros Ht. unfold bubbleDown. destruct (length h); simpl; [done|].
  by rewrite decide_True.
Qed.

(** Writing at the root a value that ties the old root leaves the heap
    ordered: nothing sinks. *)
Lemma tie_at_root_stays h v top :
  heap_from 0 h -> get h 0 = Some top -> compare v top = 0 ->
  bubbleDown compare (set h 0 v) 0 = set h 0 v.
Proof.
  intros Hh Htop Htie. pose proof (get_Some _ _ _ Htop) as Hr.
  apply bubbleDown_stay, targetIdx_stay. intros c Hc.
  pose proof (child_lt 0 c ltac:(lia) Hc).
  unfold Heap.outranks. rewrite get_set_eq by done.
  rewrite get_set_ne by lia.
  destruct (get h c) as [b|] eqn:Hb; [|done].
  apply bool_decide_eq_false_2, cmp_le_not_lt.
  eapply (Htrans _ top); [lia|]. eapply (Hh 0 c); eauto. lia.
Qed.

End HeapFacts.

(** ** Facts about the object level *)

Section StoreFacts.

Context {T : Type} `{EqDecision T}.

Implicit Types (w : Store.World T) (o : Store.PriorityQueue T)
  (h g : list T) (this other a : nat).

Lemma store_lookup_eq w a h :
  (a < length (Store.arrays w))%nat ->
  Store.arrays (Store.store w a h) !! a = Some h.
Proof. intros Ha. simpl. by apply list_lookup_insert_eq. Qed.

Lemma store_lookup_ne w a b h :
  a <> b -> Store.arrays (Store.store w a h) !! b = Store.arrays w !! b.
Proof. intros Hne. simpl. by apply list_lookup_insert_ne. Qed.

Lemma store_store w a h1 h2 :
  Store.store (Store.store w a h1) a h2 = Store.store w a h2.
Proof. unfold Store.store. simpl. by rewrite list_insert_insert_eq. Qed.

Lemma store_id w a h : Store.arrays w !! a = Some h -> Store.store w a h = w.
Proof.
  intros Ha. destruct w as [arrs objs]. unfold Store.store. simpl in *.
  by rewrite list_insert_id.
Qed.

Lemma heapOf_store_eq w this o h :
  Store.objects w !! this = Some o ->
  (Store.heap o < length (Store.arrays w))%nat ->
  Store.heapOf (Store.store w (Store.heap o) h) this = Some h.
Proof.
  intros Ho Hlt. unfold Store.heapOf. simpl. rewrite Ho. simpl.
  by apply list_lookup_insert_eq.
Qed.

Lemma heapOf_store_ne w this o a h :
  Store.objects w !! this = Some o -> a <> Store.heap o ->
  Store.heapOf (Store.store w a h) this = Store.heapOf w this.
Proof.
  intros Ho Hne. unfold Store.heapOf. simpl. rewrite Ho. simpl.
  by apply list_lookup_insert_ne.
Qed.

(** *** The iterator *)



(** *** The loop of merge *)

Lemma merge_loop_start fuel w0 w this other o :
  Store.objects w !! other = Some o ->
  Store.merge_loop fuel w this (Store.iterator w0 other)
  = Store.merge_loop fuel w this (Store.Running (Store.heap o) 0).
Proof. intros Ho. destruct fuel; simpl; [done|]. by rewrite Ho. Qed.

(** Between two different arrays the loop appends what is left of the
    source, provided the fuel covers it. *)
Lemma merge_loop_distinct fuel w this o a h g i :
  Store.objects w !! this = Some o ->
  Store.arrays w !! Store.heap o = Some h ->
  Store.arrays w !! a = Some g ->
  a <> Store.heap o ->
  Store.merge_loop fuel w this (Store.Running a i)
  = if decide (length g - i < fuel)%nat
    then Some (Store.store w (Store.heap o) (h ++ drop i g))
    else None.
Proof.
  intros Ho Hh Hg Hne. revert w h i Ho Hh Hg.
  induction fuel as [|fuel IH]; intros w h i Ho Hh Hg.
  - cbn [Store.merge_loop]. case_decide; [lia|done].
  - simpl. unfold Store.arrayNext. rewrite Hg.
    destruct (g !! i) as [x|] eqn:Hi.
    + pose proof (lookup_lt_Some _ _ _ Hi) as Hlt.
      pose proof (lookup_lt_Some _ _ _ Hh) as Hlt'.
      rewrite Ho. simpl. rewrite Hh. simpl.
      rewrite (IH _ (JsArray.push h x) (S i)); first last.
      * by rewrite store_lookup_ne.
      * by apply store_lookup_eq.
      * done.
      * rewrite store_store. unfold JsArray.push.
        rewrite <- app_assoc. simpl. rewrite <- (drop_S _ _ _ Hi).
        repeat case_decide; try done; lia.
    + apply lookup_ge_None in Hi. rewrite decide_True by lia.
      rewrite drop_ge, app_nil_r by done. by rewrite store_id.
Qed.

(** A queue that iterates over its own non-empty array while pushing to
    it never reaches the end: no fuel is enough. *)
Lemma merge_loop_self fuel w this o h i :
  Store.objects w !! this = Some o ->
  Store.arrays w !! Store.heap o = Some h ->
  (i < length h)%nat ->
  Store.merge_loop fuel w this (Store.Running (Store.heap o) i) = None.
Proof.
  revert w h i. induction fuel as [|fuel IH]; intros w h i Ho Hh Hi; [done|].
  simpl. unfold Store.arrayNext. rewrite Hh.
  destruct (lookup_lt_is_Some_2 h i Hi) as [x Hx]. rewrite Hx, Ho. simpl.
  rewrite Hh. simpl. pose proof (lookup_lt_Some _ _ _ Hh).
  apply (IH _ (JsArray.push h x)); [done|by apply store_lookup_eq|].
  unfold JsArray.push. rewrite length_app. simpl. lia.
Qed.

(** *** Well-formed worlds *)

Lemma wf_empty : Store.wf (Store.empty (T := T)).
Proof.
  split; [intros i o Ho|intros i j oi oj Ho]; simpl in Ho;
    by rewrite lookup_nil in Ho.
Qed.

Lemma wf_store w a h : Store.wf w -> Store.wf (Store.store w a h).
Proof.
  intros [H1 H2]. split; simpl; [|done].
  intros i o Ho. rewrite length_insert. by eapply H1.
Qed.

Lemma wf_new w comparator initialValues :
  Store.wf w -> Store.wf (fst (Store.new w comparator initialValues)).
Proof.
  intros [H1 H2]. split; simpl.
  - intros i o [Ho|[_ Ho]]%lookup_app_Some; rewrite length_app; simpl.
    + pose proof (H1 _ _ Ho). lia.
    + destruct (i - _)%nat; simplify_eq/=. lia.
  - intros i j oi oj [Hi|[Hi Hi']]%lookup_app_Some
      [Hj|[Hj Hj']]%lookup_app_Some Heq.
    + by eapply H2.
    + pose proof (H1 _ _ Hi).
      destruct (j - _)%nat; simplify_eq/=. lia.
    + pose proof (H1 _ _ Hj).
      destruct (i - _)%nat; simplify_eq/=. lia.
    + apply lookup_lt_Some in Hi', Hj'. simpl in *. lia.
Qed.

End StoreFacts.

(** ** Adequacy of the fuel passed by the methods *)

Lemma bubbleDown_fuel_adequate {T : Type} (compare : Comparator T)
    (h : list T) (k : Z) (extra : nat) :
  0 <= k ->
  bubbleDown_loop compare (length h + extra) h k = bubbleDown compare h k.
Proof.
  intros Hk. apply bubbleDown_loop_fuel; unfold len; lia.
Qed.

Lemma bubbleUp_fuel_adequate {T : Type} (compare : Comparator T)
    (h : list T) (k : Z) (extra : nat) :
  k < len h ->
  bubbleUp_loop compare (length h + extra) h k = bubbleUp compare h k.
Proof.
  intros Hk. apply bubbleUp_loop_fuel; unfold len in *; lia.
Qed.

Lemma wf_clear {T : Type} (w w' : Store.World T) (this : nat) :
  Store.wf w -> Store.clear w this = Some w' -> Store.wf w'.
Proof.
  intros [H1 H2]. unfold Store.clear.
  destruct (Store.objects w !! this) as [o|] eqn:Ho; [|done]. simpl.
  intros [= <-]. pose proof (lookup_lt_Some _ _ _ Ho) as Hthis.
  split; simpl.
  - intros i o' Hi. rewrite length_app. simpl.
    destruct (decide (i = this)) as [->|Hne].
    + rewrite list_lookup_insert_eq in Hi by done. simplify_eq/=. lia.
    + rewrite list_lookup_insert_ne in Hi by done.
      pose proof (H1 _ _ Hi). lia.
  - intros i j oi oj Hi Hj Heq.
    destruct (decide (i = this)) as [->|Hi'], (decide (j = this)) as [->|Hj'];
      try done.
    + rewrite list_lookup_insert_eq in Hi by done.
      rewrite list_lookup_insert_ne in Hj by done.
      pose proof (H1 _ _ Hj). simplify_eq/=. lia.
    + rewrite list_lookup_insert_ne in Hi by done.
      rewrite list_lookup_insert_eq in Hj by done.
      pose proof (H1 _ _ Hi). simplify_eq/=. lia.
    + rewrite list_lookup_insert_ne in Hi by done.
      rewrite list_lookup_insert_ne in Hj by done. by eapply H2.
Qed.

(** ** The default comparators *)

Lemma default_antisym type : sign_antisym (defaultComparator type).
Proof. destruct type; intros a b; simpl; lia. Qed.

Lemma default_trans type : le_trans (defaultComparator type).
Proof. destruct type; intros a b c; simpl; lia. Qed.

(** Under [Min] the order of the comparator is [<=], under [Max] it is
    [>=]. *)
Lemma cle_min a b : cle (defaultComparator Min) a b <-> a <= b.
Proof. unfold cle. simpl. lia. Qed.

Lemma cle_max a b : cle (defaultComparator Max) a b <-> a >= b.
Proof. unfold cle. simpl. lia. Qed.

#[local] Instance cle_default_antisymm type :
  AntiSymm (=) (cle (defaultComparator type)).
Proof. destruct type; intros a b; unfold cle; simpl; lia. Qed.

Lemma StronglySorted_impl {A} (R R' : A -> A -> Prop) l :
  (forall a b, R a b -> R' a b) -> StronglySorted R l -> StronglySorted R' l.
Proof.
  intros HR. induction 1 as [|a l Hs IH Hall]; constructor; [done|].
  eapply Forall_impl; eauto.
Qed.

(** A heap under a default comparator drains to the one sorted
    arrangement of its elements. *)
Lemma drain_default type (h sorted : list Z) :
  heap_ok (defaultComparator type) h ->
  sorted ≡ₚ h -> StronglySorted (cle (defaultComparator type)) sorted ->
  drain (defaultComparator type) h = sorted.
Proof.
  intros Hh Hp Hs.
  apply (heap_from_ok (defaultComparator type)) in Hh.
  destruct (drain_sorted _ (default_antisym type) (default_trans type) h Hh)
    as [Hperm Hsorted].
  eapply StronglySorted_unique; [apply _|done..|]. by rewrite Hperm, Hp.
Qed.

(** ** The claims *)

(** C1. Heap-property invariant: in every state reachable through the
    public API (construction with initial values, then any sequence of
    push, pop, remove, replace, pushPop, merge, clear), every valid index
    [i] whose child [c] in [{2i+1, 2i+2}] exists satisfies
    [compare(elements[i], elements[c]) <= 0], for every comparator that
    meets the comparator contract. *)
Theorem heap_invariant {T : Type} `{EqDecision T}
    (compare : Comparator T) (h : list T) :
  sign_antisym compare -> le_trans compare ->
  reachable compare h -> heap_ok compare h.
Proof.
  intros Ha Ht Hr. apply (heap_from_ok compare).
  by apply reachable_heap_from.
Qed.

Lemma heap_invariant_witness :
  sign_antisym (defaultComparator Min)
  /\ le_trans (defaultComparator Min)
  /\ reachable (defaultComparator Min) example_state
  /\ heap_ok (defaultComparator Min) example_state.
Proof.
  assert (Hr : reachable (defaultComparator Min) example_state)
    by exact (reach_call _ (Remove 3) _
                (reach_call _ (Push 4) _
                   (reach_new _ (Some [5; 3; 7; 1; 9; 2])))).
  split; [apply default_antisym|].
  split; [apply default_trans|].
  split; [exact Hr|].
  apply (heap_invariant (defaultComparator Min) example_state
           (default_antisym Min) (default_trans Min) Hr).
Defined.

(** C2. Pop order is a full sort: every permutation of
    [{9,8,7,6,5,4,3,2,1}] pushed into a fresh heap pops as [1..9]
    ascending under min semantics and as [9..1] descending under max
    semantics; a min heap constructed from [[5,3,7,1,9,2]] has [peek() = 1]
    and pops as [[1,2,3,5,7,9]]. *)
Theorem pop_order_full_sort (l : list Z) :
  l ≡ₚ [9; 8; 7; 6; 5; 4; 3; 2; 1] ->
  drain (defaultComparator Min)
    (pushAll (defaultComparator Min) (construct (defaultComparator Min) None) l)
  = [1; 2; 3; 4; 5; 6; 7; 8; 9]
  /\ drain (defaultComparator Max)
       (pushAll (defaultComparator Max)
          (construct (defaultComparator Max) None) l)
     = [9; 8; 7; 6; 5; 4; 3; 2; 1]
  /\ peek (construct (defaultComparator Min) (Some [5; 3; 7; 1; 9; 2]))
     = Some 1
  /\ drain (defaultComparator Min)
       (construct (defaultComparator Min) (Some [5; 3; 7; 1; 9; 2]))
     = [1; 2; 3; 5; 7; 9].
Proof.
  intros Hl.
  assert (Hheap : forall type,
             heap_ok (defaultComparator type)
               (pushAll (defaultComparator type)
                  (construct (defaultComparator type) None) l)).
  { intros type. apply (heap_from_ok (defaultComparator type)).
    apply pushAll_heap;
      [apply default_antisym|apply default_trans|apply heap_from_nil]. }
  assert (Hperm : forall type,
             pushAll (defaultComparator type)
               (construct (defaultComparator type) None) l ≡ₚ l).
  { intros type. rewrite pushAll_perm. simpl. by rewrite app_nil_r. }
  split; [|split; [|split; vm_compute; reflexivity]].
  - apply drain_default; [apply Hheap| |].
    + rewrite Hperm, Hl. apply (bool_decide_unpack _). by vm_compute.
    + repeat constructor; unfold cle; simpl; lia.
  - apply drain_default; [apply Hheap| |].
    + by rewrite Hperm, Hl.
    + repeat constructor; unfold cle; simpl; lia.
Qed.

Lemma pop_order_full_sort_witness :
  [4; 9; 1; 7; 2; 8; 3; 6; 5] ≡ₚ [9; 8; 7; 6; 5; 4; 3; 2; 1]
  /\ drain (defaultComparator Min)
       (pushAll (defaultComparator Min) (construct (defaultComparator Min) None)
          [4; 9; 1; 7; 2; 8; 3; 6; 5])
     = [1; 2; 3; 4; 5; 6; 7; 8; 9].
Proof.
  assert (Hp : [4; 9; 1; 7; 2; 8; 3; 6; 5] ≡ₚ [9; 8; 7; 6; 5; 4; 3; 2; 1])
    by (apply (bool_decide_unpack _); vm_compute; exact I).
  split; [exact Hp|].
  exact (proj1 (pop_order_full_sort [4; 9; 1; 7; 2; 8; 3; 6; 5] Hp)).
Defined.

(** C3. Empty-container queries are results, never faults: on an empty
    heap [pop] and [peek] return "no value" and leave the heap as it is;
    [replace] on an empty heap inserts the value by a normal [push] and
    returns "no previous value"; on a one-element heap [pop] returns that
    element and leaves the heap empty. *)
Theorem empty_queries {T : Type} `{EqDecision T}
    (compare : Comparator T) (v x : T) :
  pop compare [] = ([], None)
  /\ peek (T := T) [] = None
  /\ replace compare [] v = (fst (push compare [] v), None)
  /\ fst (replace compare [] v) = [v]
  /\ pop compare [x] = ([], Some x).
Proof. repeat split. Qed.

(** ** The shape of remove *)

Section RemoveFacts.

Context {T : Type} `{EqDecision T}.
Variable compare : Comparator T.

Implicit Types (h : list T) (v x : T) (i : Z).

(** The first position holding [v] is what [indexOf] returns. *)
Lemma indexOf_first h v i :
  get h i = Some v -> (forall j, 0 <= j < i -> get h j <> Some v) ->
  indexOf h v = i.
Proof.
  intros Hi Hfirst.
  assert (indexOf h v <> -1) as Hne.
  { rewrite indexOf_missing. intros Hn. apply Hn. by eapply get_elem_of. }
  destruct (indexOf_found h v Hne) as (Hr & Hv & Hmin).
  pose proof (get_Some _ _ _ Hi).
  destruct (Z.lt_trichotomy (indexOf h v) i) as [Hlt|[Heq|Hgt]]; [|done|].
  - exfalso. apply (Hfirst (indexOf h v)); [lia|done].
  - exfalso. apply (Hmin i); [lia|done].
Qed.

Lemma remove_missing h v : v ∉ h -> remove compare h v = (h, false).
Proof.
  intros Hn. unfold remove. apply indexOf_missing in Hn.
  by rewrite decide_True.
Qed.

Lemma remove_last h v :
  indexOf h v = len h - 1 -> indexOf h v <> -1 ->
  remove compare h v = (fst (JsArray.pop h), true).
Proof.
  intros Hi Hne. unfold remove.
  rewrite decide_False by done. by rewrite decide_True.
Qed.

(** A match before the last slot: the last element moves in and one pass
    runs, upward when the moved element outranks its parent and downward
    otherwise. *)
Lemma remove_inner h v i :
  indexOf h v = i -> 0 <= i < len h - 1 ->
  exists x,
    snd (JsArray.pop h) = Some x
    /\ get (set (fst (JsArray.pop h)) i x) i = Some x
    /\ (forall j, j < i ->
          get (set (fst (JsArray.pop h)) i x) j = get h j)
    /\ remove compare h v
       = (if (0 <? i)
             && outranks compare (set (fst (JsArray.pop h)) i x) i
                  (getParentIndex i)
          then bubbleUp compare (set (fst (JsArray.pop h)) i x) i
          else bubbleDown compare (set (fst (JsArray.pop h)) i x) i,
          true).
Proof.
  intros Hidx Hi.
  destruct (get_in_range h (len h - 1)) as [x Hx]; [lia|].
  assert (h <> []) as Hnil by (intros ->; by compute in Hx).
  pose proof (len_array_pop h Hnil) as Hlen.
  exists x. rewrite array_pop_last. split; [done|].
  split; [apply get_set_eq; lia|].
  split.
  { intros j Hj. rewrite get_set_ne by lia. apply get_array_pop. lia. }
  unfold remove. rewrite Hidx.
  rewrite !decide_False by lia.
  pose proof (array_pop_last h) as Hl. rewrite Hx in Hl.
  destruct (JsArray.pop h) as [h1 moved]. simpl in Hl. subst moved.
  cbn [fst].
  assert ((getParentIndex i >=? 0) = (0 <? i)) as ->.
  { destruct (decide (i = 0)) as [->|]; [done|].
    destruct (parent_child i ltac:(lia)) as [_ ?].
    rewrite (proj2 (Z.ltb_lt 0 i)) by lia.
    rewrite Z.geb_leb. apply Z.leb_le. lia. }
  by destruct (_ && _).
Qed.

End RemoveFacts.

(** ** The claims, continued *)

(** C4. [toSortedArray] returns a fully order-sorted copy of the elements,
    ascending for min semantics and descending for max semantics, and
    leaves the backing sequence exactly as it was, so that [peek()] and
    [size] are unchanged. *)
Theorem toSortedArray_frame {T : Type} `{EqDecision T}
    (compare : Comparator T) (h : list T) :
  sign_antisym compare -> le_trans compare -> heap_ok compare h ->
  fst (toSortedArray compare h) = h
  /\ snd (toSortedArray compare h) ≡ₚ h
  /\ StronglySorted (cle compare) (snd (toSortedArray compare h))
  /\ peek (fst (toSortedArray compare h)) = peek h
  /\ size (fst (toSortedArray compare h)) = size h
  /\ (forall (type : HeapType) (g : list Z),
        heap_ok (defaultComparator type) g ->
        StronglySorted (match type with Min => Z.le | Max => Z.ge end)
          (snd (toSortedArray (defaultComparator type) g))).
Proof.
  intros Ha Ht Hh. rewrite toSortedArray_spec. cbn [fst snd].
  apply (heap_from_ok compare) in Hh.
  destruct (drain_sorted compare Ha Ht h Hh) as [Hp Hs].
  repeat split; try done.
  intros type g Hg. rewrite toSortedArray_spec. cbn [snd].
  apply (heap_from_ok (defaultComparator type)) in Hg.
  destruct (drain_sorted _ (default_antisym type) (default_trans type) g Hg)
    as [_ Hsg].
  eapply StronglySorted_impl; [|exact Hsg].
  destruct type; intros a b; [apply cle_min|apply cle_max].
Qed.

Lemma toSortedArray_frame_witness :
  heap_ok (defaultComparator Max) [9; 5; 7; 1; 3; 2]
  /\ toSortedArray (defaultComparator Max) [9; 5; 7; 1; 3; 2]
     = ([9; 5; 7; 1; 3; 2], [9; 7; 5; 3; 2; 1])
  /\ StronglySorted (cle (defaultComparator Max))
       (snd (toSortedArray (defaultComparator Max) [9; 5; 7; 1; 3; 2])).
Proof.
  assert (Hh : heap_ok (defaultComparator Max) [9; 5; 7; 1; 3; 2]).
  { apply (heap_from_ok (defaultComparator Max)), is_heap_spec.
    vm_compute. reflexivity. }
  split; [exact Hh|]. split; [vm_compute; reflexivity|].
  exact (proj1 (proj2 (proj2
    (toSortedArray_frame (defaultComparator Max) [9; 5; 7; 1; 3; 2]
       (default_antisym Max) (default_trans Max) Hh)))).
Defined.

(** C5. [pushPop(value)]: on an empty heap, or when [compare(value, top)]
    is strictly negative, it returns [value] and leaves the heap as it is;
    otherwise it performs [replace(value)] and returns the prior top; in
    every case the size after the call is the size before it. *)
Theorem pushPop_spec {T : Type} `{EqDecision T}
    (compare : Comparator T) (h : list T) (v : T) :
  (h = [] -> pushPop compare h v = (h, Some v))
  /\ (forall top, peek h = Some top -> compare v top < 0 ->
        pushPop compare h v = (h, Some v))
  /\ (forall top, peek h = Some top -> ~ compare v top < 0 ->
        pushPop compare h v = replace compare h v
        /\ snd (pushPop compare h v) = Some top)
  /\ size (fst (pushPop compare h v)) = size h.
Proof.
  unfold peek, size. split; [by intros ->|].
  assert (Hne : forall top, get h 0 = Some top -> isEmpty h = false).
  { intros top Htop. apply get_Some in Htop.
    apply bool_decide_eq_false_2. lia. }
  split; [|split].
  - intros top Htop Hlt. unfold pushPop, outranksTop.
    rewrite (Hne top Htop), Htop. cbn [orb].
    by rewrite bool_decide_eq_true_2.
  - intros top Htop Hge. unfold pushPop, outranksTop.
    rewrite (Hne top Htop), Htop. cbn [orb].
    rewrite bool_decide_eq_false_2 by done. split; [done|].
    unfold replace. by rewrite (Hne top Htop), Htop.
  - unfold pushPop.
    destruct (isEmpty h || outranksTop compare h v) eqn:Hfast; [done|].
    apply orb_false_iff in Hfast as [He _].
    apply bool_decide_eq_false in He. by apply len_replace.
Qed.

(** C6. [remove(value)]: when no element equals the value it returns
    [false] and the heap is unchanged; when the first match is the last
    slot only that slot is dropped; otherwise the last element overwrites
    the matched slot, the sequence shrinks by one, and exactly one
    corrective pass runs, bubble-up if the moved element strictly outranks
    its parent and bubble-down otherwise, and [true] is returned.
    Removing [3] from the min heap built from [[5,3,7,1,9,2]] and draining
    yields [[1,2,5,7,9]]. *)
Theorem remove_spec :
  (forall (T : Type) (EqT : EqDecision T) (compare : Comparator T)
          (h : list T) (v : T),
      (v ∉ h -> remove compare h v = (h, false))
      /\ forall i,
          get h i = Some v ->
          (forall j, 0 <= j < i -> get h j <> Some v) ->
          (i = len h - 1 ->
           remove compare h v = (fst (JsArray.pop h), true))
          /\ (i < len h - 1 ->
              exists x,
                snd (JsArray.pop h) = Some x
                /\ (forall p,
                      0 < i -> get h (getParentIndex i) = Some p ->
                      compare x p < 0 ->
                      remove compare h v
                      = (bubbleUp compare
                           (set (fst (JsArray.pop h)) i x) i, true))
                /\ (i = 0
                    \/ (exists p, get h (getParentIndex i) = Some p
                                  /\ ~ compare x p < 0) ->
                    remove compare h v
                    = (bubbleDown compare
                         (set (fst (JsArray.pop h)) i x) i, true))
                /\ size (fst (remove compare h v)) = size h - 1))
  /\ remove (defaultComparator Min)
       (construct (defaultComparator Min) (Some [5; 3; 7; 1; 9; 2])) 3
     = ([1; 5; 2; 7; 9], true)
  /\ drain (defaultComparator Min)
       (fst (remove (defaultComparator Min)
               (construct (defaultComparator Min) (Some [5; 3; 7; 1; 9; 2]))
               3))
     = [1; 2; 5; 7; 9].
Proof.
  split; [|split; vm_compute; reflexivity].
  intros T EqT compare h v. split; [apply remove_missing|].
  intros i Hi Hfirst. pose proof (get_Some _ _ _ Hi) as Hr.
  pose proof (indexOf_first h v i Hi Hfirst) as Hidx. split.
  - intros Hlast. apply remove_last; lia.
  - intros Hinner.
    destruct (remove_inner compare h v i Hidx ltac:(lia))
      as (x & Hx & Hself & Hother & Hrem).
    exists x. split; [done|].
    assert (Hpar : forall p, 0 < i -> get h (getParentIndex i) = Some p ->
              outranks compare (set (fst (JsArray.pop h)) i x) i
                (getParentIndex i)
              = bool_decide (compare x p < 0)).
    { intros p Hpos Hp. destruct (parent_child i ltac:(lia)) as [_ Hlt].
      unfold outranks. by rewrite Hself, Hother, Hp by lia. }
    split; [|split].
    + intros p Hpos Hp Hlt. rewrite Hrem, (Hpar p Hpos Hp).
      rewrite (proj2 (Z.ltb_lt 0 i)) by lia.
      by rewrite bool_decide_eq_true_2.
    + intros [->|(p & Hp & Hge)]; rewrite Hrem; [done|].
      destruct (0 <? i) eqn:Hpos; [|done]. apply Z.ltb_lt in Hpos.
      rewrite (Hpar p Hpos Hp). by rewrite bool_decide_eq_false_2.
    + rewrite Hrem. unfold size.
      assert (h <> []) as Hnil.
      { intros ->. unfold len in Hr. simpl in Hr. lia. }
      destruct (_ && _); cbn [fst];
        rewrite ?len_bubbleUp, ?len_bubbleDown, len_set;
        by apply len_array_pop.
Qed.

(** C9. Tie behaviour of [pushPop]: when [compare(v, top) = 0] on a
    non-empty heap the fast path is not taken; [pushPop(v)] takes the
    replace path, the root slot becomes [v] and the prior top is
    returned. *)
Theorem pushPop_tie {T : Type} `{EqDecision T}
    (compare : Comparator T) (h : list T) (v top : T) :
  sign_antisym compare -> le_trans compare -> heap_ok compare h ->
  peek h = Some top -> compare v top = 0 ->
  isEmpty h || outranksTop compare h v = false
  /\ pushPop compare h v = replace compare h v
  /\ pushPop compare h v = (set h 0 v, Some top)
  /\ peek (fst (pushPop compare h v)) = Some v.
Proof.
  intros Ha Ht Hh Htop Htie. unfold peek in *.
  pose proof (get_Some _ _ _ Htop) as Hr.
  apply (heap_from_ok compare) in Hh.
  assert (Hguard : isEmpty h || outranksTop compare h v = false).
  { apply orb_false_iff. split.
    - apply bool_decide_eq_false_2. lia.
    - unfold outranksTop. rewrite Htop. apply bool_decide_eq_false_2. lia. }
  assert (Hrep : replace compare h v = (set h 0 v, Some top)).
  { unfold replace. apply orb_false_iff in Hguard as [-> _].
    rewrite Htop. f_equal. by eapply tie_at_root_stays. }
  unfold pushPop. rewrite Hguard, Hrep. cbn [fst].
  repeat split; try done. by apply get_set_eq.
Qed.

Lemma pushPop_tie_witness :
  sign_antisym byPriority /\ le_trans byPriority
  /\ heap_ok byPriority [(1, 10); (3, 11); (2, 12)]
  /\ pushPop byPriority [(1, 10); (3, 11); (2, 12)] (1, 20)
     = ([(1, 20); (3, 11); (2, 12)], Some (1, 10)).
Proof.
  assert (Ha : sign_antisym byPriority)
    by (intros a b; unfold byPriority; lia).
  assert (Ht : le_trans byPriority)
    by (intros a b c; unfold byPriority; lia).
  assert (Hh : heap_ok byPriority [(1, 10); (3, 11); (2, 12)]).
  { apply (heap_from_ok byPriority), is_heap_spec. vm_compute. reflexivity. }
  split; [exact Ha|]. split; [exact Ht|]. split; [exact Hh|].
  exact (proj1 (proj2 (proj2
    (pushPop_tie byPriority [(1, 10); (3, 11); (2, 12)] (1, 20) (1, 10)
       Ha Ht Hh eq_refl eq_refl)))).
Defined.

(** C10. Removing the root: when the first match of [remove(value)] is at
    index 0 of a heap with at least two elements, [getParentIndex(0)] is
    [-1], so the bubble-up branch is not taken; the one corrective pass is
    bubble-down from the root, and the heap property holds at every index
    after the call. *)
Theorem remove_root {T : Type} `{EqDecision T}
    (compare : Comparator T) (h : list T) (v : T) :
  sign_antisym compare -> le_trans compare -> heap_ok compare h ->
  indexOf h v = 0 -> 2 <= len h ->
  getParentIndex 0 = -1
  /\ (getParentIndex 0 >=? 0) = false
  /\ (exists x,
        snd (JsArray.pop h) = Some x
        /\ remove compare h v
           = (bubbleDown compare (set (fst (JsArray.pop h)) 0 x) 0, true))
  /\ heap_ok compare (fst (remove compare h v)).
Proof.
  intros Ha Ht Hh Hidx Hlen. split; [done|]. split; [done|]. split.
  - destruct (remove_inner compare h v 0 Hidx ltac:(lia))
      as (x & Hx & _ & _ & Hrem).
    exists x. by split.
  - apply (heap_from_ok compare), remove_heap; [done..|].
    by apply (heap_from_ok compare).
Qed.

Lemma remove_root_witness :
  sign_antisym (defaultComparator Min) /\ le_trans (defaultComparator Min)
  /\ heap_ok (defaultComparator Min) [1; 3; 2; 5; 9; 7]
  /\ indexOf [1; 3; 2; 5; 9; 7] 1 = 0
  /\ 2 <= len [1; 3; 2; 5; 9; 7]
  /\ heap_ok (defaultComparator Min)
       (fst (remove (defaultComparator Min) [1; 3; 2; 5; 9; 7] 1)).
Proof.
  assert (Hh : heap_ok (defaultComparator Min) [1; 3; 2; 5; 9; 7]).
  { apply (heap_from_ok (defaultComparator Min)), is_heap_spec.
    vm_compute. reflexivity. }
  assert (Hl : 2 <= len [1; 3; 2; 5; 9; 7]) by (vm_compute; discriminate).
  split; [apply default_antisym|]. split; [apply default_trans|].
  split; [exact Hh|]. split; [reflexivity|]. split; [exact Hl|].
  exact (proj2 (proj2 (proj2
    (remove_root (defaultComparator Min) [1; 3; 2; 5; 9; 7] 1
       (default_antisym Min) (default_trans Min) Hh eq_refl Hl)))).
Defined.

(** ** merge and the iterator on objects *)

Section MergeFacts.

Context {T : Type} `{EqDecision T}.

Implicit Types (w : Store.World T) (o : Store.PriorityQueue T)
  (h g : list T) (this other : nat).

(** Merging a different queue: with fuel for the elements of [other] the
    call returns, and [this.heap] holds the heapified concatenation. *)
Lemma merge_distinct fuel w this other o1 o2 h g :
  Store.objects w !! this = Some o1 ->
  Store.objects w !! other = Some o2 ->
  Store.arrays w !! Store.heap o1 = Some h ->
  Store.arrays w !! Store.heap o2 = Some g ->
  Store.heap o2 <> Store.heap o1 ->
  Store.merge fuel w this other
  = if decide (length g < fuel)%nat
    then Some (Store.store w (Store.heap o1)
                 (heapify (Store.compare o1) (h ++ g)))
    else None.
Proof.
  intros Ho1 Ho2 Hh Hg Hne. unfold Store.merge.
  rewrite (merge_loop_start _ _ _ _ _ _ Ho2).
  rewrite (merge_loop_distinct _ _ _ _ _ _ _ 0%nat Ho1 Hh Hg Hne).
  rewrite Nat.sub_0_r, drop_0.
  case_decide; [|done]. simpl. rewrite Ho1. simpl.
  rewrite list_lookup_insert_eq by (by eapply lookup_lt_Some). simpl.
  by rewrite store_store.
Qed.

(** Merging a non-empty queue into itself never returns. *)
Lemma merge_self_diverges fuel w this o h :
  Store.objects w !! this = Some o ->
  Store.arrays w !! Store.heap o = Some h ->
  h <> [] ->
  Store.merge fuel w this this = None.
Proof.
  intros Ho Hh Hne. unfold Store.merge.
  rewrite (merge_loop_start _ _ _ _ _ _ Ho).
  rewrite (merge_loop_self _ _ _ _ h); [done..|].
  destruct h; [done|simpl; lia].
Qed.

(** Merging an empty queue into itself changes nothing. *)
Lemma merge_self_empty fuel w this o w' :
  Store.objects w !! this = Some o ->
  Store.arrays w !! Store.heap o = Some [] ->
  Store.merge fuel w this this = Some w' ->
  w' = w.
Proof.
  intros Ho Hh. unfold Store.merge.
  rewrite (merge_loop_start _ _ _ _ _ _ Ho).
  destruct fuel as [|fuel]; [done|]. simpl.
  unfold Store.arrayNext. rewrite Hh. simpl. rewrite Ho. simpl.
  rewrite Hh. simpl. intros [= <-]. by apply store_id.
Qed.

End MergeFacts.

(** C7 as stated fails: [merge] has no guard against [other] being [this],
    and a non-empty queue merged into itself never returns, so there is no
    state after the call in which the sizes add up. *)
Lemma merge_self_counterexample :
  ~ (forall (w : Store.World Z) (this other : nat) (h g : list Z),
       Store.heapOf w this = Some h ->
       Store.heapOf w other = Some g ->
       exists fuel w',
         Store.merge fuel w this other = Some w'
         /\ Store.size w' this = Some (len h + len g)
         /\ Store.heapOf w' other = Some g).
Proof.
  intros Hclaim.
  destruct (Hclaim example_world 0%nat 0%nat [3; 5; 7] [3; 5; 7]
              eq_refl eq_refl) as (fuel & w' & Hm & _).
  rewrite (merge_self_diverges fuel example_world 0
             {| Store.heap := 0%nat; Store.compare := defaultComparator Min |}
             [3; 5; 7] eq_refl eq_refl) in Hm; discriminate.
Qed.

(** C7, amended. [this.merge(other)] for a queue [other] that is not
    [this]: the call returns, with one result whatever the fuel; after it
    this heap's size is the sum of the two prior sizes, its backing array
    is the single re-heapify of its prior elements followed by the
    elements of [other] in their internal order, draining it yields the
    sorted union of both contents under this heap's comparator, and
    [other] is unmodified (same backing sequence, same size, same peek). *)
Theorem merge_spec {T : Type} `{EqDecision T}
    (w : Store.World T) (this other : nat)
    (o1 o2 : Store.PriorityQueue T) (h g : list T) :
  Store.wf w ->
  Store.objects w !! this = Some o1 ->
  Store.objects w !! other = Some o2 ->
  Store.arrays w !! Store.heap o1 = Some h ->
  Store.arrays w !! Store.heap o2 = Some g ->
  sign_antisym (Store.compare o1) -> le_trans (Store.compare o1) ->
  this <> other ->
  exists w',
    Store.merge (S (length g)) w this other = Some w'
    /\ (forall fuel w'',
          Store.merge fuel w this other = Some w'' -> w'' = w')
    /\ Store.heapOf w' this = Some (heapify (Store.compare o1) (h ++ g))
    /\ Store.size w' this = Some (len h + len g)
    /\ drain (Store.compare o1) (heapify (Store.compare o1) (h ++ g))
       ≡ₚ h ++ g
    /\ StronglySorted (cle (Store.compare o1))
         (drain (Store.compare o1)
            (heapify (Store.compare o1) (h ++ g)))
    /\ Store.objects w' = Store.objects w
    /\ Store.heapOf w' other = Some g
    /\ Store.size w' other = Some (len g)
    /\ Store.peek w' other = Some (peek g).
Proof.
  intros [Hwf1 Hwf2] Ho1 Ho2 Hh Hg Ha Ht Hneq.
  assert (Store.heap o2 <> Store.heap o1) as Hne.
  { intros Heq. apply Hneq. symmetry. by eapply Hwf2. }
  pose proof (Hwf1 _ _ Ho1) as Hlt1.
  pose proof (merge_distinct (S (length g)) _ _ _ _ _ _ _ Ho1 Ho2 Hh Hg Hne)
    as Hret.
  rewrite decide_True in Hret by lia.
  eexists. split; [exact Hret|]. split.
  { intros fuel w''.
    rewrite (merge_distinct _ _ _ _ _ _ _ _ Ho1 Ho2 Hh Hg Hne).
    case_decide; [|done]. by intros [= <-]. }
  destruct (drain_sorted (Store.compare o1) Ha Ht
              (heapify (Store.compare o1) (h ++ g))) as [Hp Hs].
  { by apply heapify_heap. }
  unfold Store.size, Store.peek.
  rewrite (heapOf_store_eq _ _ _ _ Ho1 Hlt1).
  rewrite (heapOf_store_ne _ _ _ _ _ Ho2) by done.
  unfold Store.heapOf. rewrite Ho2. simpl. rewrite Hg. simpl.
  rewrite (perm_len _ _ (heapify_perm _ _)).
  unfold len. rewrite length_app.
  repeat split; try done.
  - f_equal. lia.
  - by rewrite Hp, heapify_perm.
Qed.

Lemma merge_spec_witness :
  Store.wf example_world
  /\ Store.heapOf example_world 0 = Some [3; 5; 7]
  /\ Store.heapOf example_world 1 = Some [8; 2; 1]
  /\ 0%nat <> 1%nat
  /\ exists w',
      Store.merge 4 example_world 0 1 = Some w'
      /\ Store.heapOf w' 0 = Some [1; 2; 3; 8; 5; 7]
      /\ Store.heapOf w' 1 = Some [8; 2; 1].
Proof.
  assert (Hwf : Store.wf example_world).
  { unfold example_world. apply wf_new, wf_new, wf_empty. }
  assert (Hne : 0%nat <> 1%nat) by discriminate.
  split; [exact Hwf|]. split; [reflexivity|]. split; [reflexivity|].
  split; [exact Hne|].
  destruct (merge_spec example_world 0 1
              {| Store.heap := 0%nat;
                 Store.compare := defaultComparator Min |}
              {| Store.heap := 1%nat;
                 Store.compare := defaultComparator Max |}
              [3; 5; 7] [8; 2; 1] Hwf eq_refl eq_refl eq_refl eq_refl
              (default_antisym Min) (default_trans Min) Hne)
    as (w' & Hm & _ & Hthis & _ & _ & _ & _ & Hother & _).
  exists w'. split; [exact Hm|]. split; [exact Hthis|exact Hother].
Defined.






(** ** Further facts about the methods *)

Section MethodFacts.

Context {T : Type} `{EqDecision T}.
Variable compare : Comparator T.
Hypothesis Hanti : sign_antisym compare.
Hypothesis Htrans : le_trans compare.

Implicit Types (h : list T) (v x : T) (i k : Z).

(** The root after [bubbleUp]: the old root, or the floated element when
    it strictly outranks the old root. *)
Lemma bubbleUp_loop_root fuel h k :
  get (bubbleUp_loop compare fuel h k) 0 = get h 0
  \/ exists v t,
      get h k = Some v /\ get h 0 = Some t /\ compare v t < 0
      /\ get (bubbleUp_loop compare fuel h k) 0 = Some v.
Proof.
  revert h k. induction fuel as [|fuel IH]; intros h k; simpl; [by left|].
  case_decide as Hk; [|by left].
  destruct (Heap.outranks compare h k (getParentIndex k)) eqn:Hout;
    [|by left].
  destruct (parent_child k Hk) as [_ Hp].
  destruct (outranks_true _ _ _ _ Hout) as (a & b & Ha & Hb & Hlt).
  pose proof (get_swap h k (getParentIndex k) a b) as Hsw.
  specialize (fun j => Hsw j Ha Hb).
  destruct (IH (swap h k (getParentIndex k)) (getParentIndex k))
    as [HL|(v' & t' & Hv' & Ht' & Hlt' & Hres)].
  - rewrite Hsw in HL. case_decide as Hp0.
    + right. exists a, b. rewrite <- Hp0 in Hb. by rewrite HL.
    + rewrite decide_False in HL by lia. by left.
  - rewrite Hsw in Hv'. rewrite decide_True in Hv' by done. simplify_eq.
    rewrite Hsw in Ht'. case_decide as Hp0.
    + right. exists v', b. rewrite <- Hp0 in Hb. by rewrite Hres.
    + rewrite decide_False in Ht' by lia. right. by exists v', t'.
Qed.

(** [bubbleDown] changes nothing at a node of a heap. *)
Lemma bubbleDown_heap_id h k :
  heap_from compare 0 h -> 0 <= k -> bubbleDown compare h k = h.
Proof.
  intros Hh Hk. apply bubbleDown_stay, targetIdx_stay. intros c Hc.
  unfold Heap.outranks.
  destruct (get h c) as [b|] eqn:Hb; [|done].
  destruct (get h k) as [a|] eqn:Ha; [|done].
  apply bool_decide_eq_false_2, (cmp_le_not_lt compare Hanti).
  by eapply (Hh k c).
Qed.

Lemma heapify_heap_id h : heap_from compare 0 h -> heapify compare h = h.
Proof.
  intros Hh. unfold heapify. generalize (Z.to_nat (len h / 2)).
  induction n as [|n IH]; simpl; [done|].
  rewrite bubbleDown_heap_id by (done || lia). done.
Qed.

(** [remove] takes out one occurrence of the value. *)
Lemma remove_perm h v : v ∈ h -> h ≡ₚ v :: fst (remove compare h v).
Proof.
  intros Hin.
  assert (indexOf h v <> -1) as Hne by (by rewrite indexOf_missing; auto).
  destruct (indexOf_found h v Hne) as (Hr & Hv & _).
  assert (h <> []) as Hnil.
  { intros ->. unfold len in Hr. simpl in Hr. lia. }
  destruct (decide (indexOf h v = len h - 1)) as [Hlast|Hinner].
  - rewrite (remove_last compare h v Hlast Hne). cbn [fst].
    pose proof (array_pop_last h) as Hl. rewrite <- Hlast, Hv in Hl.
    rewrite (array_pop_snoc h v Hl) at 1.
    by rewrite Permutation_app_comm.
  - assert (0 <= indexOf h v < len h - 1) as Hin' by lia.
    destruct (remove_inner compare h v (indexOf h v) eq_refl Hin')
      as (x & Hx & _ & _ & ->). cbn [fst].
    pose proof (array_pop_snoc h x Hx) as Hsn.
    assert (get (fst (JsArray.pop h)) (indexOf h v) = Some v) as Hg
      by (by rewrite get_array_pop by lia).
    assert (fst (JsArray.pop h) !! Z.to_nat (indexOf h v) = Some v) as Hlk.
    { unfold get in Hg. by rewrite decide_True in Hg by lia. }
    assert (set (fst (JsArray.pop h)) (indexOf h v) x
            = <[Z.to_nat (indexOf h v) := x]> (fst (JsArray.pop h))) as ->.
    { unfold set. by rewrite decide_True by lia. }
    rewrite Hsn at 1.
    transitivity (v :: <[Z.to_nat (indexOf h v) := x]> (fst (JsArray.pop h))).
    + rewrite (insert_cons_perm _ _ x v Hlk). by rewrite Permutation_app_comm.
    + f_equiv. symmetry.
      destruct (_ && _); [apply bubbleUp_perm|apply bubbleDown_perm].
Qed.

Lemma remove_result h v : snd (remove compare h v) = contains h v.
Proof.
  unfold contains, includes, remove.
  destruct (decide (v ∈ h)) as [Hin|Hnin].
  - rewrite bool_decide_eq_true_2 by done.
    assert (indexOf h v <> -1) as Hne by (by rewrite indexOf_missing; auto).
    rewrite decide_False by done. case_decide; [done|].
    destruct (JsArray.pop h) as [h1 [x|]]; [|done].
    by destruct (_ && _).
  - rewrite bool_decide_eq_false_2 by done.
    apply indexOf_missing in Hnin. by rewrite decide_True.
Qed.

(** [replace] on a non-empty array swaps the root for the value. *)
Lemma replace_nonempty h v top :
  get h 0 = Some top ->
  snd (replace compare h v) = Some top
  /\ top :: fst (replace compare h v) ≡ₚ v :: h.
Proof.
  intros Htop. pose proof (get_Some _ _ _ Htop) as Hr.
  unfold replace, isEmpty. rewrite bool_decide_eq_false_2 by lia.
  cbn [fst snd]. split; [done|].
  rewrite bubbleDown_perm. unfold set, get in *.
  rewrite decide_True in * by lia.
  by apply insert_cons_perm.
Qed.

(** The world a started iterator reads is the array it holds. *)
Lemma enumerate_same_array fuel (w w' : Store.World T) a n :
  Store.arrays w' !! a = Store.arrays w !! a ->
  Store.enumerate fuel w' (Store.Running a n)
  = Store.enumerate fuel w (Store.Running a n).
Proof.
  intros Heq. revert n. induction fuel as [|fuel IH]; intros n; [done|].
  simpl. unfold Store.arrayNext. rewrite Heq.
  destruct (Store.arrays w !! a) as [g|]; [|done].
  destruct (g !! n); [|done]. by rewrite IH.
Qed.

End MethodFacts.

(** ** The two equalities *)

(** [includes] finds every value that is in the array, NaN included. *)
Lemma svz_contains {T : Type} `{EqDecision T} (h : list T) (v : T) :
  JsEq.contains h v = contains h v.
Proof.
  unfold JsEq.contains, JsEq.includes, contains, JsArray.includes,
    JsEq.sameValueZero.
  induction h as [|x t IH]; cbn [existsb].
  - symmetry. apply bool_decide_eq_false_2, not_elem_of_nil.
  - rewrite IH. destruct (decide (x = v)) as [->|Hne].
    + rewrite bool_decide_eq_true_2 by done. simpl. symmetry.
      apply bool_decide_eq_true_2. by left.
    + rewrite (bool_decide_eq_false_2 (x = v)) by done. simpl.
      apply bool_decide_ext. rewrite elem_of_cons.
      split; [by right|by intros [->|?]].
Qed.

Section JsEqFacts.

Context {T : Type} `{EqDecision T}.
Variable isNaN : T -> bool.
Variable compare : Comparator T.

Implicit Types (h : list T) (v : T).

(** [indexOf] never finds NaN, and finds any other value where the search
    by identity finds it. *)
Lemma strict_indexOf_from h v i :
  JsEq.indexOf_from isNaN h v i
  = if isNaN v then -1 else JsArray.indexOf_from h v i.
Proof.
  revert i. induction h as [|x t IH]; intros i; simpl.
  - by destruct (isNaN v).
  - unfold JsEq.strictEquals. rewrite IH.
    destruct (isNaN v); simpl.
    + by rewrite andb_false_r.
    + rewrite andb_true_r. by case_decide; case_bool_decide.
Qed.

Lemma strict_remove h v :
  JsEq.remove isNaN compare h v
  = if isNaN v then (h, false) else remove compare h v.
Proof.
  unfold JsEq.remove, remove, JsEq.indexOf, JsArray.indexOf.
  rewrite strict_indexOf_from. by destruct (isNaN v).
Qed.

End JsEqFacts.

(** ** Further properties of the class *)

(** X1. Index helpers: the parent of either child of [i] is [i], and every
    index after the root lies above its parent and is one of the two
    children of that parent. *)
Theorem index_round_trip (i : Z) :
  getParentIndex (getLeftChildIndex i) = i
  /\ getParentIndex (getRightChildIndex i) = i
  /\ (forall k, k > 0 ->
        0 <= getParentIndex k < k
        /\ (k = getLeftChildIndex (getParentIndex k)
            \/ k = getRightChildIndex (getParentIndex k))).
Proof.
  unfold getParentIndex, getLeftChildIndex, getRightChildIndex.
  split; [|split].
  - replace (2 * i + 1 - 1) with (i * 2) by lia. apply Z.div_mul. lia.
  - replace (2 * i + 2 - 1) with (1 + i * 2) by lia.
    rewrite Z.div_add by lia. reflexivity.
  - intros k Hk. destruct (parent_child k Hk) as [Hc Hp].
    split; [exact Hp|exact Hc].
Qed.

(** X2. The constructor keeps every initial value, duplicates included: the
    backing array is a rearrangement of [initialValues] and the size is
    their number; without initial values the queue is empty. *)
Theorem construct_elements {T : Type} (compare : Comparator T)
    (initialValues : list T) :
  construct compare (Some initialValues) ≡ₚ initialValues
  /\ size (construct compare (Some initialValues)) = len initialValues
  /\ construct compare None = []
  /\ isEmpty (construct compare None) = true.
Proof.
  assert (Hp : construct compare (Some initialValues) ≡ₚ initialValues).
  { simpl. case_decide as Hlen; [apply heapify_perm|].
    destruct initialValues; [done|]. unfold len in Hlen. simpl in Hlen. lia. }
  split; [exact Hp|]. split; [|done]. unfold size. by apply perm_len.
Qed.

(** X3. [push] returns the new size, which is the old size plus one, and adds
    exactly the pushed value to the elements. *)
Theorem push_effect {T : Type} `{EqDecision T} (compare : Comparator T)
    (h : list T) (value : T) :
  snd (push compare h value) = size h + 1
  /\ size (fst (push compare h value)) = size h + 1
  /\ fst (push compare h value) ≡ₚ value :: h
  /\ contains (fst (push compare h value)) value = true.
Proof.
  pose proof (push_perm compare h value) as Hp.
  assert (Hs : size (fst (push compare h value)) = size h + 1).
  { unfold size. rewrite (perm_len _ _ Hp). unfold len. simpl. lia. }
  split; [exact Hs|]. split; [exact Hs|]. split; [exact Hp|].
  unfold contains, includes. apply bool_decide_eq_true_2.
  rewrite Hp. by left.
Qed.

(** The root after appending a value and floating it. *)
Lemma push_root {T : Type} (compare : Comparator T)
    (h : list T) (value : T) :
  sign_antisym compare -> le_trans compare -> heap_ok compare h ->
  peek (fst (push compare h value))
  = if isEmpty h || outranksTop compare h value then Some value else peek h.
Proof.
  intros Ha Ht Hh. apply (heap_from_ok compare) in Hh.
  pose proof (push_heap compare Ha Ht h value Hh) as Hh'.
  pose proof (push_perm compare h value) as Hp.
  unfold peek. destruct h as [|top t]; [reflexivity|].
  unfold isEmpty, outranksTop. rewrite bool_decide_eq_false_2
    by (unfold len; simpl; lia).
  cbn [orb]. change (get (top :: t) 0) with (Some top).
  cbn [push fst] in *. unfold bubbleUp in *.
  destruct (bubbleUp_loop_root compare
              (length (JsArray.push (top :: t) value))
              (JsArray.push (top :: t) value)
              (len (JsArray.push (top :: t) value) - 1))
    as [HL|(v' & t' & Hv' & Ht' & Hlt & Hres)].
  - rewrite HL. change (get (JsArray.push (top :: t) value) 0) with (Some top).
    case_bool_decide as Hlt; [|done]. exfalso.
    assert (cle compare top value) as Hle.
    { eapply (root_min compare Ha Ht); [exact Hh'|exact HL|].
      rewrite Hp. by left. }
    by apply (cmp_le_not_lt compare Ha) in Hle.
  - rewrite get_push, len_push in Hv'.
    rewrite decide_True in Hv' by lia.
    change (get (JsArray.push (top :: t) value) 0) with (Some top) in Ht'.
    simplify_eq. by rewrite Hres, bool_decide_eq_true_2.
Qed.

(** X4. After [push] the top is the pushed value when the queue was empty or
    the value strictly outranks the old top, and the old top otherwise: a
    value that ties the top does not displace it. *)
Theorem push_peek {T : Type} `{EqDecision T} (compare : Comparator T)
    (h : list T) (value : T) :
  sign_antisym compare -> le_trans compare -> heap_ok compare h ->
  peek (fst (push compare h value))
  = if isEmpty h || outranksTop compare h value then Some value else peek h.
Proof. apply push_root. Qed.

Lemma push_peek_witness :
  sign_antisym byPriority /\ le_trans byPriority
  /\ heap_ok byPriority [(1, 10); (3, 11); (2, 12)]
  /\ peek (fst (push byPriority [(1, 10); (3, 11); (2, 12)] (1, 20)))
     = Some (1, 10).
Proof.
  assert (Ha : sign_antisym byPriority)
    by (intros a b; unfold byPriority; lia).
  assert (Ht : le_trans byPriority)
    by (intros a b c; unfold byPriority; lia).
  assert (Hh : heap_ok byPriority [(1, 10); (3, 11); (2, 12)]).
  { apply (heap_from_ok byPriority), is_heap_spec. vm_compute. reflexivity. }
  split; [exact Ha|]. split; [exact Ht|]. split; [exact Hh|].
  exact (push_peek byPriority [(1, 10); (3, 11); (2, 12)] (1, 20) Ha Ht Hh).
Defined.



(** X6. [pop] on a non-empty heap returns the top, removes exactly that one
    element, lowers the size by one, keeps the heap property, and what it
    returns is outranked by nothing that stays in the queue. *)
Theorem pop_effect {T : Type} `{EqDecision T} (compare : Comparator T)
    (h : list T) :
  sign_antisym compare -> le_trans compare -> heap_ok compare h ->
  h <> [] ->
  exists x h',
    pop compare h = (h', Some x)
    /\ peek h = Some x
    /\ h ≡ₚ x :: h'
    /\ size h' = size h - 1
    /\ heap_ok compare h'
    /\ forall y, y ∈ h' -> compare x y <= 0.
Proof.
  intros Ha Ht Hh Hne. apply (heap_from_ok compare) in Hh.
  destruct (pop_nonempty compare h Hne) as (x & h' & Hpop & Hx & Hp).
  exists x, h'. split; [done|]. split; [done|]. split; [done|].
  split; [|split].
  - unfold size. rewrite (perm_len _ _ Hp). unfold len. simpl. lia.
  - apply (heap_from_ok compare).
    pose proof (pop_heap compare Ha Ht h Hh) as Hh'. by rewrite Hpop in Hh'.
  - intros y Hy. apply (root_min compare Ha Ht h x Hh Hx).
    rewrite Hp. by right.
Qed.

Lemma pop_effect_witness :
  sign_antisym (defaultComparator Min) /\ le_trans (defaultComparator Min)
  /\ heap_ok (defaultComparator Min) [1; 3; 2; 5; 9; 7]
  /\ [1; 3; 2; 5; 9; 7] <> []
  /\ exists x h',
      pop (defaultComparator Min) [1; 3; 2; 5; 9; 7] = (h', Some x)
      /\ peek [1; 3; 2; 5; 9; 7] = Some x
      /\ [1; 3; 2; 5; 9; 7] ≡ₚ x :: h'
      /\ size h' = size [1; 3; 2; 5; 9; 7] - 1
      /\ heap_ok (defaultComparator Min) h'
      /\ forall y, y ∈ h' -> defaultComparator Min x y <= 0.
Proof.
  assert (Hh : heap_ok (defaultComparator Min) [1; 3; 2; 5; 9; 7]).
  { apply (heap_from_ok (defaultComparator Min)), is_heap_spec.
    vm_compute. reflexivity. }
  assert (Hne : [1; 3; 2; 5; 9; 7] <> []) by discriminate.
  split; [apply default_antisym|]. split; [apply default_trans|].
  split; [exact Hh|]. split; [exact Hne|].
  exact (pop_effect (defaultComparator Min) [1; 3; 2; 5; 9; 7]
           (default_antisym Min) (default_trans Min) Hh Hne).
Defined.

(** X7. [remove] finds the value with [===] and [contains] with
    SameValueZero: [remove] returns [true] exactly when the value is
    contained and is not NaN.  When it returns [true] it has taken out one
    occurrence and the size has dropped by one; when it returns [false],
    as it does for NaN even if the queue holds one, the heap is as it
    was. *)
Theorem remove_effect {T : Type} `{EqDecision T} (isNaN : T -> bool)
    (compare : Comparator T) (h : list T) (value : T) :
  snd (JsEq.remove isNaN compare h value)
  = JsEq.contains h value && negb (isNaN value)
  /\ (snd (JsEq.remove isNaN compare h value) = true ->
      h ≡ₚ value :: fst (JsEq.remove isNaN compare h value)
      /\ size (fst (JsEq.remove isNaN compare h value)) = size h - 1)
  /\ (snd (JsEq.remove isNaN compare h value) = false ->
      fst (JsEq.remove isNaN compare h value) = h).
Proof.
  rewrite strict_remove, svz_contains. destruct (isNaN value).
  - cbn [fst snd negb]. rewrite andb_false_r. by repeat split.
  - cbn [negb]. rewrite andb_true_r, remove_result.
    split; [done|]. unfold contains, includes. split.
    + intros Hin%bool_decide_eq_true.
      pose proof (remove_perm compare h value Hin) as Hp.
      split; [exact Hp|]. unfold size. rewrite (perm_len _ _ Hp).
      unfold len. simpl. lia.
    + intros Hnin%bool_decide_eq_false. by rewrite remove_missing.
Qed.

(** X8. [replace] behaves as [pop] followed by [push]: the same value is
    returned (the old top, or nothing on an empty queue) and the same
    elements are left, although their arrangement may differ. *)
Theorem replace_is_pop_push {T : Type} `{EqDecision T}
    (compare : Comparator T) (h : list T) (value : T) :
  snd (replace compare h value) = snd (pop compare h)
  /\ fst (replace compare h value)
     ≡ₚ fst (push compare (fst (pop compare h)) value)
  /\ size (fst (replace compare h value))
     = if isEmpty h then 1 else size h.
Proof.
  destruct h as [|top t]; [by repeat split|].
  destruct (pop_nonempty compare (top :: t) ltac:(done))
    as (x & h' & Hpop & Hx & Hp).
  destruct (replace_nonempty compare (top :: t) value x Hx) as [Hr Hq].
  rewrite Hpop. cbn [fst snd]. split; [done|].
  assert (Hperm : fst (replace compare (top :: t) value) ≡ₚ value :: h').
  { apply (Permutation_cons_inv (a := x)). rewrite Hq, Hp.
    apply Permutation_swap. }
  split; [by rewrite Hperm, push_perm|].
  unfold size. rewrite (perm_len _ _ Hperm).
  pose proof (perm_len _ _ Hp) as Hl. unfold len in *. simpl in *. lia.
Qed.

(** X9. [pushPop] returns an element that nothing among the value and the old
    elements outranks, and leaves the others in the queue. *)
Theorem pushPop_least {T : Type} `{EqDecision T} (compare : Comparator T)
    (h : list T) (value : T) :
  sign_antisym compare -> le_trans compare -> heap_ok compare h ->
  exists r h',
    pushPop compare h value = (h', Some r)
    /\ value :: h ≡ₚ r :: h'
    /\ forall y, y ∈ value :: h -> compare r y <= 0.
Proof.
  intros Ha Ht Hh. apply (heap_from_ok compare) in Hh.
  unfold pushPop. destruct h as [|top t].
  - exists value, []. split; [done|]. split; [done|].
    intros y ->%list_elem_of_singleton. apply (cmp_refl compare Ha).
  - unfold isEmpty, outranksTop.
    rewrite bool_decide_eq_false_2 by (unfold len; simpl; lia).
    cbn [orb]. change (get (top :: t) 0) with (Some top).
    assert (Hmin : forall y, y ∈ top :: t -> compare top y <= 0).
    { intros y Hy. by apply (root_min compare Ha Ht (top :: t) top Hh). }
    cbv beta match.
    destruct (decide (compare value top < 0)) as [Hlt|Hlt];
      [rewrite bool_decide_eq_true_2 by done
      |rewrite bool_decide_eq_false_2 by done].
    + exists value, (top :: t). split; [done|]. split; [done|].
      intros y [->|Hy]%elem_of_cons; [apply (cmp_refl compare Ha)|].
      apply (Ht _ top); [lia|by apply Hmin].
    + destruct (replace_nonempty compare (top :: t) value top eq_refl)
        as [Hr Hq].
      exists top, (fst (replace compare (top :: t) value)).
      split; [by rewrite <- Hr; destruct (replace _ _ _)|].
      split; [by rewrite Hq|].
      intros y [->|Hy]%elem_of_cons; [|by apply Hmin].
      by apply (cmp_flip compare Ha).
Qed.

Lemma pushPop_least_witness :
  sign_antisym (defaultComparator Min) /\ le_trans (defaultComparator Min)
  /\ heap_ok (defaultComparator Min) [1; 3; 2; 5; 9; 7]
  /\ exists r h',
      pushPop (defaultComparator Min) [1; 3; 2; 5; 9; 7] 4 = (h', Some r)
      /\ 4 :: [1; 3; 2; 5; 9; 7] ≡ₚ r :: h'
      /\ forall y, y ∈ 4 :: [1; 3; 2; 5; 9; 7] ->
           defaultComparator Min r y <= 0.
Proof.
  assert (Hh : heap_ok (defaultComparator Min) [1; 3; 2; 5; 9; 7]).
  { apply (heap_from_ok (defaultComparator Min)), is_heap_spec.
    vm_compute. reflexivity. }
  split; [apply default_antisym|]. split; [apply default_trans|].
  split; [exact Hh|].
  exact (pushPop_least (defaultComparator Min) [1; 3; 2; 5; 9; 7] 4
           (default_antisym Min) (default_trans Min) Hh).
Defined.

(** X10. [pushPop] behaves as [push] followed by [pop] on a heap: the same
    value is returned and the same elements are left, without the queue
    ever growing. *)
Theorem pushPop_is_push_pop {T : Type} `{EqDecision T}
    (compare : Comparator T) (h : list T) (value : T) :
  sign_antisym compare -> le_trans compare -> heap_ok compare h ->
  snd (pushPop compare h value)
  = snd (pop compare (fst (push compare h value)))
  /\ fst (pushPop compare h value)
     ≡ₚ fst (pop compare (fst (push compare h value))).
Proof.
  intros Ha Ht Hh. destruct h as [|top t]; [by split|].
  pose proof (push_root compare (top :: t) value Ha Ht Hh) as Hroot.
  pose proof (push_perm compare (top :: t) value) as Hpush.
  assert (fst (push compare (top :: t) value) <> []) as Hne.
  { intros Hnil. rewrite Hnil in Hpush.
    by apply Permutation_nil_cons in Hpush. }
  destruct (pop_nonempty compare _ Hne) as (x & h' & Hpop & Hx & Hp).
  rewrite Hpop. cbn [fst snd]. unfold peek in Hroot. rewrite Hx in Hroot.
  unfold pushPop. unfold isEmpty in *.
  rewrite bool_decide_eq_false_2 in * by (unfold len; simpl; lia).
  cbn [orb] in *. destruct (outranksTop compare (top :: t) value).
  - simplify_eq. cbn [fst snd]. split; [done|].
    apply (Permutation_cons_inv (a := value)). by rewrite <- Hp, Hpush.
  - change (get (top :: t) 0) with (Some top) in Hroot. simplify_eq.
    destruct (replace_nonempty compare (top :: t) value top eq_refl)
      as [Hr Hq].
    split; [done|].
    apply (Permutation_cons_inv (a := top)). by rewrite Hq, <- Hp, Hpush.
Qed.

Lemma pushPop_is_push_pop_witness :
  sign_antisym (defaultComparator Min) /\ le_trans (defaultComparator Min)
  /\ heap_ok (defaultComparator Min) [1; 3; 2; 5; 9; 7]
  /\ snd (pushPop (defaultComparator Min) [1; 3; 2; 5; 9; 7] 4)
     = snd (pop (defaultComparator Min)
              (fst (push (defaultComparator Min) [1; 3; 2; 5; 9; 7] 4))).
Proof.
  assert (Hh : heap_ok (defaultComparator Min) [1; 3; 2; 5; 9; 7]).
  { apply (heap_from_ok (defaultComparator Min)), is_heap_spec.
    vm_compute. reflexivity. }
  split; [apply default_antisym|]. split; [apply default_trans|].
  split; [exact Hh|].
  exact (proj1 (pushPop_is_push_pop (defaultComparator Min)
                  [1; 3; 2; 5; 9; 7] 4
                  (default_antisym Min) (default_trans Min) Hh)).
Defined.

(** X11. Size bookkeeping: what each public call does to the size;
    [remove] lowers it by one exactly when it returns [true]. *)
Theorem size_accounting {T : Type} `{EqDecision T} (compare : Comparator T)
    (c : Call) (h : list T) :
  size (call compare c h)
  = match c with
    | Push _ => size h + 1
    | Pop => if isEmpty h then 0 else size h - 1
    | Remove value =>
        if snd (remove compare h value) then size h - 1 else size h
    | Replace _ => if isEmpty h then 1 else size h
    | PushPop _ => size h
    | Merge other => size h + size other
    | Clear => 0
    | ToSortedArray => size h
    end.
Proof.
  unfold size. destruct c as [v| |v|v|v|other| |]; cbn [call].
  - rewrite (perm_len _ _ (push_perm compare h v)). unfold len. simpl. lia.
  - destruct h as [|x t]; [done|].
    destruct (pop_nonempty compare (x :: t) ltac:(done))
      as (y & h' & -> & _ & Hp).
    rewrite (perm_len _ _ Hp). unfold isEmpty.
    rewrite bool_decide_eq_false_2 by (unfold len; simpl; lia).
    unfold len. simpl. lia.
  - rewrite remove_result. unfold contains, includes.
    case_bool_decide as Hin.
    + rewrite (perm_len _ _ (remove_perm compare h v Hin)).
      unfold len. simpl. lia.
    + by rewrite remove_missing.
  - destruct h as [|x t]; [done|].
    unfold isEmpty. rewrite bool_decide_eq_false_2 by (unfold len; simpl; lia).
    apply len_replace. unfold len. simpl. lia.
  - unfold pushPop.
    destruct (isEmpty h || outranksTop compare h v) eqn:Hfast; [done|].
    apply orb_false_iff in Hfast as [He _].
    apply bool_decide_eq_false in He. by apply len_replace.
  - unfold merge. rewrite (perm_len _ _ (heapify_perm compare _)).
    unfold len. rewrite length_app. lia.
  - done.
  - by rewrite toSortedArray_spec.
Qed.

(** X12. [heapify] leaves a valid heap exactly as it is; so merging an empty
    queue, or constructing from values already in heap order, keeps the
    arrangement. *)
Theorem heapify_idempotent {T : Type} `{EqDecision T}
    (compare : Comparator T) (h : list T) :
  sign_antisym compare -> heap_ok compare h ->
  heapify compare h = h
  /\ merge compare h [] = h
  /\ construct compare (Some h) = h.
Proof.
  intros Ha Hh. apply (heap_from_ok compare) in Hh.
  pose proof (heapify_heap_id compare Ha h Hh) as Hid.
  split; [exact Hid|]. split.
  - unfold merge. by rewrite app_nil_r.
  - simpl. case_decide as Hlen; [exact Hid|].
    destruct h; [done|]. unfold len in Hlen. simpl in Hlen. lia.
Qed.

Lemma heapify_idempotent_witness :
  sign_antisym (defaultComparator Min)
  /\ heap_ok (defaultComparator Min) [1; 3; 2; 5; 9; 7]
  /\ heapify (defaultComparator Min) [1; 3; 2; 5; 9; 7] = [1; 3; 2; 5; 9; 7].
Proof.
  assert (Hh : heap_ok (defaultComparator Min) [1; 3; 2; 5; 9; 7]).
  { apply (heap_from_ok (defaultComparator Min)), is_heap_spec.
    vm_compute. reflexivity. }
  split; [apply default_antisym|]. split; [exact Hh|].
  exact (proj1 (heapify_idempotent (defaultComparator Min)
                  [1; 3; 2; 5; 9; 7] (default_antisym Min) Hh)).
Defined.

(** X13. Heap sort: constructing a queue from any values and popping until it
    is empty returns every value exactly once, in the order of the
    comparator. *)
Theorem heapsort {T : Type} `{EqDecision T} (compare : Comparator T)
    (initialValues : list T) :
  sign_antisym compare -> le_trans compare ->
  drain compare (construct compare (Some initialValues)) ≡ₚ initialValues
  /\ StronglySorted (cle compare)
       (drain compare (construct compare (Some initialValues))).
Proof.
  intros Ha Ht.
  destruct (drain_sorted compare Ha Ht
              (construct compare (Some initialValues))) as [Hp Hs].
  { apply construct_heap; done. }
  split; [|exact Hs]. rewrite Hp. simpl.
  case_decide as Hlen; [apply heapify_perm|].
  destruct initialValues; [done|]. unfold len in Hlen. simpl in Hlen. lia.
Qed.

Lemma heapsort_witness :
  sign_antisym byPriority /\ le_trans byPriority
  /\ StronglySorted (cle byPriority)
       (drain byPriority
          (construct byPriority (Some [(2, 1); (1, 2); (2, 3); (1, 4)]))).
Proof.
  assert (Ha : sign_antisym byPriority)
    by (intros a b; unfold byPriority; lia).
  assert (Ht : le_trans byPriority)
    by (intros a b c; unfold byPriority; lia).
  split; [exact Ha|]. split; [exact Ht|].
  exact (proj2 (heapsort byPriority [(2, 1); (1, 2); (2, 3); (1, 4)] Ha Ht)).
Defined.

(** X14. [clear] binds the queue to a new empty array and leaves the old array
    as it is: an iterator that has started keeps yielding the old
    elements, while one that has not started yet yields nothing. *)
Theorem clear_keeps_old_array {T : Type} `{EqDecision T}
    (w : Store.World T) (this : nat) (o : Store.PriorityQueue T)
    (h : list T) :
  Store.objects w !! this = Some o ->
  Store.arrays w !! Store.heap o = Some h ->
  exists w',
    Store.clear w this = Some w'
    /\ Store.heapOf w' this = Some []
    /\ Store.size w' this = Some 0
    /\ Store.arrays w' !! Store.heap o = Some h
    /\ (forall fuel n,
          Store.enumerate fuel w' (Store.Running (Store.heap o) n)
          = Store.enumerate fuel w (Store.Running (Store.heap o) n))
    /\ (forall fuel,
          Store.enumerate (S fuel) w' (Store.iterator w this) = Some []).
Proof.
  intros Ho Hh. unfold Store.clear. rewrite Ho. simpl.
  eexists. split; [reflexivity|].
  pose proof (lookup_lt_Some _ _ _ Ho) as Hthis.
  pose proof (lookup_lt_Some _ _ _ Hh) as Hold.
  assert (Hnew : Store.heapOf
            {| Store.arrays := Store.arrays w ++ [[]];
               Store.objects :=
                 <[this := {| Store.heap := length (Store.arrays w);
                              Store.compare := Store.compare o |}]>
                   (Store.objects w) |} this = Some []).
  { unfold Store.heapOf. simpl.
    rewrite list_lookup_insert_eq by done. simpl.
    by rewrite list_lookup_middle. }
  assert (Hkeep : (Store.arrays w ++ [[]]) !! Store.heap o = Some h)
    by (by apply lookup_app_l_Some).
  split; [exact Hnew|]. split; [unfold Store.size; by rewrite Hnew|].
  split; [exact Hkeep|]. split.
  - intros fuel n. apply enumerate_same_array. simpl. by rewrite Hkeep, Hh.
  - intros fuel. simpl. rewrite list_lookup_insert_eq by done. simpl.
    unfold Store.arrayNext. simpl. by rewrite list_lookup_middle.
Qed.

Lemma clear_keeps_old_array_witness :
  Store.objects example_world !! 0%nat
  = Some {| Store.heap := 0%nat; Store.compare := defaultComparator Min |}
  /\ Store.arrays example_world !! 0%nat = Some [3; 5; 7]
  /\ exists w',
      Store.clear example_world 0 = Some w'
      /\ Store.heapOf w' 0 = Some []
      /\ Store.size w' 0 = Some 0
      /\ Store.arrays w' !! 0%nat = Some [3; 5; 7]
      /\ (forall fuel n,
            Store.enumerate fuel w' (Store.Running 0 n)
            = Store.enumerate fuel example_world (Store.Running 0 n))
      /\ (forall fuel,
            Store.enumerate (S fuel) w' (Store.iterator example_world 0)
            = Some []).
Proof.
  split; [reflexivity|]. split; [reflexivity|].
  exact (clear_keeps_old_array example_world 0
           {| Store.heap := 0%nat; Store.compare := defaultComparator Min |}
           [3; 5; 7] eq_refl eq_refl).
Defined.

(** X15. [toSortedArray] empties the array the queue was using and binds the
    queue to a copy with the original arrangement: the queue reads as
    before, the result is the drained sequence, and an iterator that was
    already running over the old array yields nothing more. *)
Theorem toSortedArray_rebinds {T : Type} `{EqDecision T}
    (w : Store.World T) (this : nat) (o : Store.PriorityQueue T)
    (h : list T) :
  Store.objects w !! this = Some o ->
  Store.arrays w !! Store.heap o = Some h ->
  exists w',
    Store.toSortedArray w this = Some (w', drain (Store.compare o) h)
    /\ Store.heapOf w' this = Some h
    /\ Store.arrays w' !! Store.heap o = Some []
    /\ (forall fuel n,
          Store.enumerate (S fuel) w' (Store.Running (Store.heap o) n)
          = Some []).
Proof.
  intros Ho Hh. unfold Store.toSortedArray. rewrite Ho. simpl.
  rewrite Hh. simpl.
  pose proof (lookup_lt_Some _ _ _ Ho) as Hthis.
  pose proof (lookup_lt_Some _ _ _ Hh) as Hold.
  pose proof (drain_loop_empties (Store.compare o) (length h) h []
                ltac:(lia)) as Hempty.
  unfold drain.
  destruct (drain_loop (Store.compare o) (length h) h []) as [h' sorted].
  cbn [fst snd] in *. subst h'.
  eexists. split; [reflexivity|].
  assert (Hdrained :
    <[Store.heap o := []]> (Store.arrays w ++ [h]) !! Store.heap o
    = Some ([] : list T)).
  { apply list_lookup_insert_eq. rewrite length_app. lia. }
  split; [|split; [exact Hdrained|]].
  - unfold Store.heapOf. simpl.
    rewrite list_lookup_insert_eq by done. simpl.
    rewrite list_lookup_insert_ne by lia. by rewrite list_lookup_middle.
  - intros fuel n. simpl. unfold Store.arrayNext. simpl.
    by rewrite Hdrained.
Qed.

Lemma toSortedArray_rebinds_witness :
  Store.objects example_world !! 0%nat
  = Some {| Store.heap := 0%nat; Store.compare := defaultComparator Min |}
  /\ Store.arrays example_world !! 0%nat = Some [3; 5; 7]
  /\ exists w',
      Store.toSortedArray example_world 0
      = Some (w', drain (defaultComparator Min) [3; 5; 7])
      /\ Store.heapOf w' 0 = Some [3; 5; 7]
      /\ Store.arrays w' !! 0%nat = Some []
      /\ (forall fuel n,
            Store.enumerate (S fuel) w' (Store.Running 0 n) = Some []).
Proof.
  split; [reflexivity|]. split; [reflexivity|].
  exact (toSortedArray_rebinds example_world 0
           {| Store.heap := 0%nat; Store.compare := defaultComparator Min |}
           [3; 5; 7] eq_refl eq_refl).
Defined.

(** X16. Round trip: pushing a value that is not NaN and then removing it
    returns [true] and leaves the elements and the size the queue had
    before.  For NaN the removal returns [false] and the pushed value
    stays in the queue. *)
Theorem push_remove_round_trip {T : Type} `{EqDecision T}
    (isNaN : T -> bool) (compare : Comparator T) (h : list T) (value : T) :
  snd (JsEq.remove isNaN compare (fst (push compare h value)) value)
  = negb (isNaN value)
  /\ (isNaN value = false ->
      fst (JsEq.remove isNaN compare (fst (push compare h value)) value)
      ≡ₚ h
      /\ size (fst (JsEq.remove isNaN compare
                      (fst (push compare h value)) value))
         = size h)
  /\ (isNaN value = true ->
      fst (JsEq.remove isNaN compare (fst (push compare h value)) value)
      = fst (push compare h value)
      /\ JsEq.contains (fst (push compare h value)) value = true).
Proof.
  rewrite strict_remove, svz_contains.
  pose proof (push_perm compare h value) as Hpush.
  assert (Hin : value ∈ fst (push compare h value)).
  { rewrite Hpush. by left. }
  destruct (isNaN value).
  - cbn [fst snd negb]. split; [done|]. split; [done|]. intros _.
    split; [done|]. unfold contains, includes.
    by apply bool_decide_eq_true_2.
  - cbn [negb]. pose proof (remove_perm compare _ value Hin) as Hrem.
    assert (Hp : fst (remove compare (fst (push compare h value)) value)
                 ≡ₚ h).
    { apply (Permutation_cons_inv (a := value)). by rewrite <- Hrem, Hpush. }
    split; [|split; [|done]].
    + rewrite remove_result. unfold contains, includes.
      by apply bool_decide_eq_true_2.
    + intros _. split; [exact Hp|]. unfold size. by apply perm_len.
Qed.

(** X17. Merging a non-empty queue into itself never returns: the loop iterates
    over the very array it appends to, so no amount of fuel reaches the
    end of the iteration. *)
Theorem self_merge_never_returns {T : Type} `{EqDecision T}
    (w : Store.World T) (this : nat) (o : Store.PriorityQueue T)
    (h : list T) (fuel : nat) :
  Store.objects w !! this = Some o ->
  Store.arrays w !! Store.heap o = Some h ->
  h <> [] ->
  Store.merge fuel w this this = None.
Proof. apply merge_self_diverges. Qed.

Lemma self_merge_never_returns_witness :
  Store.objects example_world !! 0%nat
  = Some {| Store.heap := 0%nat; Store.compare := defaultComparator Min |}
  /\ Store.arrays example_world !! 0%nat = Some [3; 5; 7]
  /\ [3; 5; 7] <> ([] : list Z)
  /\ Store.merge 1000 example_world 0 0 = None.
Proof.
  assert (Hne : [3; 5; 7] <> ([] : list Z)) by discriminate.
  split; [reflexivity|]. split; [reflexivity|]. split; [exact Hne|].
  exact (self_merge_never_returns example_world 0
           {| Store.heap := 0%nat; Store.compare := defaultComparator Min |}
           [3; 5; 7] 1000 eq_refl eq_refl Hne).
Defined.
